(** * MIDI post-processing: polyphony to monophony, range fitting, legato

    Shallow embedding of [midi_postprocessing.py].

    Modelling choices.
    - Times ([note.start], [note.end], [time_multiplier]) are Python floats
      in the source.  They are modelled as rationals [Q]: every finite
      float is a rational, [<], [>=] and [==] on finite floats agree with
      the rational order, and the properties below use nothing of the
      product but that it is computed once, at the scaling step.
    - Pitches, range bounds and [logic_type] are Python ints: [Z].
    - A note is the Python list [[start, end, pitch]].  Such lists are
      shared between [midi_list], the groups and [selected_notes], and are
      mutated in place, so notes live in a heap and the containers hold
      locations.
    - [random.choice] draws from an explicit stream of draws.
    - Exceptions are values of [exn]; a run is a [result]. *)

From Stdlib Require Import ZArith QArith Qround List Bool Lia Permutation.
From Stdlib Require Import SetoidList SetoidPermutation.
From Stdlib Require Import Sorted Lqa.
Import ListNotations.

Set Implicit Arguments.

(** ** Exceptions and the error monad *)

Inductive exn : Set :=
| AssertionError
| IndexError.

Inductive result (A : Type) : Type :=
| Ok (a : A)
| Raise (e : exn).

Arguments Ok {A} a.
Arguments Raise {A} e.

Definition bind {A B : Type} (m : result A) (k : A -> result B) : result B :=
  match m with
  | Ok a => k a
  | Raise e => Raise e
  end.

Declare Scope py_scope.
Delimit Scope py_scope with py.
Notation "x <- m ;; k" := (bind m (fun x => k))
  (at level 61, m at next level, right associativity) : py_scope.
Notation "' p <- m ;; k" := (bind m (fun p => k))
  (at level 61, p pattern, m at next level, right associativity) : py_scope.
Open Scope py_scope.

(** ** Python primitives used by the script *)

(** [l[i]]: negative indices count from the end, anything outside
    [-len, len) raises [IndexError]. *)
Definition py_getitem {A : Type} (l : list A) (i : Z) : result A :=
  let n := Z.of_nat (length l) in
  let j := if (i <? 0)%Z then (i + n)%Z else i in
  if ((0 <=? j) && (j <? n))%Z then
    match nth_error l (Z.to_nat j) with
    | Some x => Ok x
    | None => Raise IndexError
    end
  else Raise IndexError.

(** [int(x)] on a float: truncation towards zero. *)
Definition py_int (x : Q) : Z :=
  if Qle_bool 0 x then Qfloor x else Qceiling x.

(** [x % m] on floats, for a positive modulus: [x - m * floor(x / m)]. *)
Definition py_fmod (x m : Q) : Q :=
  x - m * inject_Z (Qfloor (x / m)).

(** [math.ceil]. *)
Definition math_ceil (x : Q) : Z := Qceiling x.

(** The random source: an infinite stream of draws.  [random.choice(seq)]
    returns [seq[k]] for a draw [k] below [len(seq)] and advances the
    generator; on an empty sequence it raises [IndexError]. *)
Definition rng : Type := nat -> nat.

Definition rng_next (g : rng) : rng := fun k => g (S k).

Definition random_choice {A : Type} (items : list A) (g : rng)
  : result (A * rng) :=
  match nth_error items (g 0%nat mod length items) with
  | Some x => Ok (x, rng_next g)
  | None => Raise IndexError
  end.

(** Stable sort with a key, as [sorted(l, key=...)]: the keys are compared
    with [<] only. *)
Section Sorted.
Variables (A K : Type) (key : A -> K) (ltb : K -> K -> bool).

Fixpoint insert_sorted (x : A) (l : list A) : list A :=
  match l with
  | [] => [x]
  | y :: t => if ltb (key y) (key x) then y :: insert_sorted x t
              else x :: l
  end.

Fixpoint sorted (l : list A) : list A :=
  match l with
  | [] => []
  | x :: t => insert_sorted x (sorted t)
  end.
End Sorted.

(** [set(l)] for floats, up to the iteration order (which [sorted] fixes):
    one representative per [==]-class. *)
Fixpoint py_set (l : list Q) : list Q :=
  match l with
  | [] => []
  | x :: t => if existsb (Qeq_bool x) t then py_set t else x :: py_set t
  end.

(** Tuple comparison [(s1, p1) < (s2, p2)]: the first differing component
    decides. *)
Definition key_ltb (k1 k2 : Q * Z) : bool :=
  if negb (Qeq_bool (fst k1) (fst k2)) then
    negb (Qle_bool (fst k2) (fst k1))
  else if negb (snd k1 =? snd k2)%Z then (snd k1 <? snd k2)%Z
  else false.

Definition Qltb (x y : Q) : bool := negb (Qle_bool y x).

(** ** Notes and the heap *)

(** The list [[start, end, pitch]]. *)
Record Note : Set := mkNote { start : Q; end_ : Q; pitch : Z }.

(** A [pretty_midi.Note]. *)
Record PrettyNote : Set := mkPrettyNote {
  velocity : Z;
  pm_pitch : Z;
  pm_start : Q;
  pm_end : Q
}.

Definition loc : Set := nat.
Definition heap : Type := loc -> Note.

Definition upd (h : heap) (l : loc) (n : Note) : heap :=
  fun l' => if Nat.eqb l' l then n else h l'.

(** [note[1] = v] and [note[2] = v]. *)
Definition set_end (h : heap) (l : loc) (v : Q) : heap :=
  upd h l (mkNote (start (h l)) v (pitch (h l))).

Definition set_pitch (h : heap) (l : loc) (v : Z) : heap :=
  upd h l (mkNote (start (h l)) (end_ (h l)) v).

(** ** select_note_from_group *)

(** The value of [selected_idx] when the indexing statement is reached. *)
Definition selected_idx (len : nat) (logic_type : Z) (g : rng)
  : result (Z * rng) :=
  if negb ((0 <=? logic_type) && (logic_type <=? 2))%Z then
    Raise AssertionError
  else if (logic_type =? 0)%Z then Ok (0%Z, g)
  else if (logic_type =? 1)%Z then
    let middle := inject_Z (Z.of_nat len) / 2 in
    if Qeq_bool (py_fmod middle 2) 0 || Nat.eqb len 2 then
      random_choice [py_int middle; py_int (middle - 1)] g
    else Ok (py_int (middle - (1 # 2)), g)
  else if (logic_type =? 2)%Z then Ok ((Z.of_nat len - 1)%Z, g)
  else Ok ((-1)%Z, g).

Definition select_note_from_group {A : Type} (group : list A)
  (logic_type : Z) (g : rng) : result (A * rng) :=
  '(idx, g') <- selected_idx (length group) logic_type g ;;
  selected_note <- py_getitem group idx ;;
  Ok (selected_note, g').

(** ** fit_to_pitch_range *)

(** The note is mutated in place and returned: the result is the heap after
    the call, the returned reference is the argument [note]. *)
Definition fit_to_pitch_range (h : heap) (note : loc)
  (range_min range_max : Z) : heap :=
  let p := pitch (h note) in
  if (p >? range_max)%Z then
    let octaves_to_transpose :=
      math_ceil (inject_Z (p - range_max) / 12) in
    set_pitch h note (p - 12 * octaves_to_transpose)%Z
  else if (p <? range_min)%Z then
    let octaves_to_transpose :=
      math_ceil (inject_Z (range_min - p) / 12) in
    set_pitch h note (p + 12 * octaves_to_transpose)%Z
  else h.

(** ** midi_postprocessing *)

(** Reading loop: every note of every instrument becomes a fresh list
    [[start * time_multiplier, end * time_multiplier, pitch]]. *)
Definition scale_note (time_multiplier : Q) (n : PrettyNote) : Note :=
  mkNote (pm_start n * time_multiplier) (pm_end n * time_multiplier)
         (pm_pitch n).

Definition read_notes (midi_data : list (list PrettyNote))
  (time_multiplier : Q) : list Note :=
  map (scale_note time_multiplier) (concat midi_data).

Definition dummy_note : Note := mkNote 0 0 0.

(** The [i]-th list appended to [midi_list] is allocated at location [i]. *)
Definition alloc (notes : list Note) : heap :=
  fun l => nth l notes dummy_note.

Definition sort_key (h : heap) (x : loc) : Q * Z :=
  (start (h x), pitch (h x)).

Definition sort_midi_list (h : heap) (midi_list : list loc) : list loc :=
  sorted (sort_key h) key_ltb midi_list.

Definition start_values (h : heap) (midi_list : list loc) : list Q :=
  sorted (fun x => x) Qltb (py_set (map (fun x => start (h x)) midi_list)).

Definition group_by_start_time (h : heap) (midi_list : list loc)
  : list (list loc) :=
  map (fun x => filter (fun y => Qeq_bool (start (h y)) x) midi_list)
      (start_values h midi_list).

(** The variables the main loop reads and writes. *)
Record state : Type := mkState {
  st_heap : heap;
  selected_notes : list loc;
  st_rng : rng
}.

Section Loop.
Variables (range_min range_max logic_type : Z) (add_legato : bool).

(** One iteration of [for group in group_by_start_time]. *)
Definition loop_body (st : state) (group : list loc) : result state :=
  '(note, g) <-
    (if (1 <? length group)%nat then
       select_note_from_group group logic_type (st_rng st)
     else
       note <- py_getitem group 0 ;; Ok (note, st_rng st)) ;;
  let h := fit_to_pitch_range (st_heap st) note range_min range_max in
  if (0 <? length (selected_notes st))%nat then
    let note_start_time := start (h note) in
    prev <- py_getitem (selected_notes st) (-1) ;;
    let previous_group_end_time := end_ (h prev) in
    if Qle_bool previous_group_end_time note_start_time then
      let h' := if add_legato then set_end h prev note_start_time
                else h in
      Ok (mkState h' (selected_notes st ++ [note]) g)
    else Ok (mkState h (selected_notes st) g)
  else Ok (mkState h (selected_notes st ++ [note]) g).

Fixpoint for_each (groups : list (list loc)) (st : state) : result state :=
  match groups with
  | [] => Ok st
  | group :: rest => st' <- loop_body st group ;; for_each rest st'
  end.
End Loop.

(** The state after the main loop, before the output file is built. *)
Definition select_notes (midi_data : list (list PrettyNote))
  (range_min range_max : Z) (time_multiplier : Q) (logic_type : Z)
  (add_legato : bool) (g : rng) : result state :=
  let notes := read_notes midi_data time_multiplier in
  let h := alloc notes in
  let midi_list := sort_midi_list h (seq 0 (length notes)) in
  for_each range_min range_max logic_type add_legato
           (group_by_start_time h midi_list) (mkState h [] g).

(** The notes appended to the piano instrument, as the arguments given to
    [pretty_midi.Note].  What [pretty_midi] itself does with them (the
    checks of its constructor and of [write], the encoding of the file)
    belongs to that library and is not part of the model. *)
Definition out_notes (st : state) : list PrettyNote :=
  map (fun note => mkPrettyNote 127 (pitch (st_heap st note))
                     (start (st_heap st note)) (end_ (st_heap st note)))
      (selected_notes st).

(** The whole function: the notes written to the output file and the
    returned [pitches_count]. *)
Definition midi_postprocessing (midi_data : list (list PrettyNote))
  (range_min range_max : Z) (time_multiplier : Q) (logic_type : Z)
  (add_legato : bool) (g : rng) : result (list PrettyNote * nat) :=
  st <- select_notes midi_data range_min range_max time_multiplier
          logic_type add_legato g ;;
  Ok (out_notes st, length (selected_notes st)).

(** ** Notions used by the statements *)

(** The guard of the random branch of policy 1, as a test on the length. *)
Definition tie (len : nat) : bool :=
  ((Z.of_nat len mod 4 =? 0)%Z || Nat.eqb len 2)%bool.

(** [R] holds of every two neighbours of [l], in order. *)
Definition adjacent {A : Type} (R : A -> A -> Prop) (l : list A) : Prop :=
  forall (i : nat) (a b : A),
    nth_error l i = Some a -> nth_error l (S i) = Some b -> R a b.

Definition in_range (range_min range_max p : Z) : Prop :=
  (range_min <= p <= range_max)%Z.

(** What one iteration of the main loop does to the state, as a relation:
    the candidate [note] comes from the group and is fitted; it is the
    first accepted note, or it passes the overlap gate (and legato rewrites
    the end of the previous note), or it is dropped. *)
Inductive iteration (range_min range_max : Z) (add_legato : bool)
  (st : state) (group : list loc) : state -> Prop :=
| iteration_first (note : loc) (g : rng) :
    In note group ->
    selected_notes st = [] ->
    iteration range_min range_max add_legato st group
      (mkState (fit_to_pitch_range (st_heap st) note range_min range_max)
               [note] g)
| iteration_accept (note prev : loc) (sel : list loc) (g : rng) :
    In note group ->
    selected_notes st = sel ++ [prev] ->
    let h := fit_to_pitch_range (st_heap st) note range_min range_max in
    end_ (h prev) <= start (h note) ->
    iteration range_min range_max add_legato st group
      (mkState (if add_legato then set_end h prev (start (h note)) else h)
               ((sel ++ [prev]) ++ [note]) g)
| iteration_drop (note prev : loc) (sel : list loc) (g : rng) :
    In note group ->
    selected_notes st = sel ++ [prev] ->
    let h := fit_to_pitch_range (st_heap st) note range_min range_max in
    ~ end_ (h prev) <= start (h note) ->
    iteration range_min range_max add_legato st group
      (mkState h (sel ++ [prev]) g).

(** The invariant of the main loop: [h0] is the heap when the loop starts,
    [rest] the groups still to be visited. *)
Record invariant (range_min range_max : Z) (add_legato : bool) (h0 : heap)
  (st : state) (rest : list (list loc)) : Prop := mkInvariant {
  inv_nodup : NoDup (selected_notes st ++ concat rest);
  inv_no_overlap :
    adjacent (fun a b => end_ (st_heap st a) <= start (st_heap st b))
             (selected_notes st);
  inv_legato :
    add_legato = true ->
    adjacent (fun a b => end_ (st_heap st a) = start (st_heap st b))
             (selected_notes st);
  inv_start : forall l, start (st_heap st l) = start (h0 l);
  inv_end_last :
    forall l, ~ In l (removelast (selected_notes st)) ->
              end_ (st_heap st l) = end_ (h0 l);
  inv_end_no_legato :
    add_legato = false -> forall l, end_ (st_heap st l) = end_ (h0 l);
  inv_pitch :
    (range_max - range_min >= 11)%Z ->
    forall l, In l (selected_notes st) ->
              in_range range_min range_max (pitch (st_heap st l))
}.

(** The groups the main loop of [midi_postprocessing] iterates over. *)
Definition time_groups (midi_data : list (list PrettyNote))
  (time_multiplier : Q) : list (list loc) :=
  let notes := read_notes midi_data time_multiplier in
  let h := alloc notes in
  group_by_start_time h (sort_midi_list h (seq 0 (length notes))).

(** Some group has more than one note, so that the selector is called. *)
Definition polyphonic (groups : list (list loc)) : bool :=
  existsb (fun group => (1 <? length group)%nat) groups.

Definition valid_logic_type (logic_type : Z) : Prop :=
  (0 <= logic_type <= 2)%Z.

(** The selector computes the index [i] and returns [group[i]], leaving
    the generator [g']. *)
Definition selects {A : Type} (group : list A) (logic_type : Z) (g : rng)
  (i : nat) (g' : rng) : Prop :=
  selected_idx (length group) logic_type g = Ok (Z.of_nat i, g') /\
  exists x, nth_error group i = Some x /\
            select_note_from_group group logic_type g = Ok (x, g').

(** ** Inputs used in the examples *)

(** A note read from the input file (its velocity plays no role). *)
Definition pn (s e : Q) (p : Z) : PrettyNote := mkPrettyNote 100 p s e.

(** Generators whose draws are all [0], respectively all [1]. *)
Definition g0 : rng := fun _ => 0%nat.
Definition g1 : rng := fun _ => 1%nat.

(** Two notes with a gap between them. *)
Definition two_notes_gap : list (list PrettyNote) :=
  [[pn 0 1 60; pn 2 3 62]].

Definition heap_gap : heap := alloc (read_notes two_notes_gap 1).

(** Two notes of which the second starts before the first ends. *)
Definition two_notes_overlap : list (list PrettyNote) :=
  [[pn 0 2 60; pn 1 3 62]].

Definition heap_overlap : heap := alloc (read_notes two_notes_overlap 1).

(** ** The two halves of an iteration *)

(** The candidate of a group: the first statement of the loop body. *)
Definition candidate (group : list loc) (logic_type : Z) (g : rng)
  : result (loc * rng) :=
  if (1 <? length group)%nat then
    select_note_from_group group logic_type g
  else
    note <- py_getitem group 0 ;; Ok (note, g).

(** The rest of the loop body, from the call of the range fitter on. *)
Definition gate (range_min range_max : Z) (add_legato : bool) (st : state)
  (note : loc) (g : rng) : result state :=
  let h := fit_to_pitch_range (st_heap st) note range_min range_max in
  if (0 <? length (selected_notes st))%nat then
    let note_start_time := start (h note) in
    prev <- py_getitem (selected_notes st) (-1) ;;
    let previous_group_end_time := end_ (h prev) in
    if Qle_bool previous_group_end_time note_start_time then
      let h' := if add_legato then set_end h prev note_start_time
                else h in
      Ok (mkState h' (selected_notes st ++ [note]) g)
    else Ok (mkState h (selected_notes st) g)
  else Ok (mkState h (selected_notes st ++ [note]) g).

(** The pitch the range fitter gives to a note of pitch [p]. *)
Definition fitted_pitch (range_min range_max p : Z) : Z :=
  pitch (fit_to_pitch_range (alloc [mkNote 0 0 p]) 0%nat
           range_min range_max 0%nat).

(** Two outcomes of the loop that agree on the heap and on the selected
    notes: they differ at most in the state of the generator. *)
Definition same_notes (r r' : result state) : Prop :=
  match r, r' with
  | Ok st, Ok st' =>
      st_heap st = st_heap st' /\ selected_notes st = selected_notes st'
  | Raise e, Raise e' => e = e'
  | _, _ => False
  end.

(** A group for which the choice of the candidate consults neither the
    generator nor, through the selector, a draw. *)
Definition fixed_choice (logic_type logic_type' : Z) (group : list loc)
  : Prop :=
  exists note, forall g g',
    candidate group logic_type g = Ok (note, g) /\
    candidate group logic_type' g' = Ok (note, g').

(** Order of the sort keys: [k1 <= k2] as the negation of [k2 < k1]. *)
Definition key_le (k1 k2 : Q * Z) : Prop := key_ltb k2 k1 = false.

(** Every note of [g1] starts before every note of [g2]. *)
Definition before (h : heap) (g1 g2 : list loc) : Prop :=
  forall a b, In a g1 -> In b g2 -> start (h a) < start (h b).

(** Invariant of the main loop on start times, read in the heap [h0] the
    loop starts from (starts are never written): the selected notes are in
    strictly ascending order of start, and start before every note of the
    groups still to be visited, which are themselves in ascending order. *)
Definition ascending_invariant (h0 : heap) (st : state)
  (rest : list (list loc)) : Prop :=
  StronglySorted (fun a b => start (h0 a) < start (h0 b))
                 (selected_notes st) /\
  (forall a group b, In a (selected_notes st) -> In group rest ->
                     In b group -> start (h0 a) < start (h0 b)) /\
  StronglySorted (before h0) rest.

(** Invariant of the main loop on pitches: the notes of the groups still
    to be visited have the pitch they were read with, the selected notes
    the fitted one. *)
Definition pitch_invariant (range_min range_max : Z) (h0 : heap)
  (st : state) (rest : list (list loc)) : Prop :=
  NoDup (selected_notes st ++ concat rest) /\
  (forall l, In l (concat rest) -> pitch (st_heap st l) = pitch (h0 l)) /\
  (forall l, In l (selected_notes st) ->
             pitch (st_heap st l)
             = fitted_pitch range_min range_max (pitch (h0 l))).

(** No note ends earlier than in the heap [h0] the loop started from. *)
Definition ends_extended (h0 : heap) (st : state) : Prop :=
  forall l, end_ (h0 l) <= end_ (st_heap st l).

(** Invariant of the main loop when no note of the heap [h0] ends after a
    later-starting one starts: nothing has been dropped so far.  [bound]
    is the number of allocated notes, [total] the number of groups. *)
Definition nothing_dropped (range_min range_max : Z) (add_legato : bool)
  (h0 : heap) (total bound : nat) (st : state) (rest : list (list loc))
  : Prop :=
  invariant range_min range_max add_legato h0 st rest /\
  ascending_invariant h0 st rest /\
  (length (selected_notes st) + length rest = total)%nat /\
  (forall l, In l (selected_notes st ++ concat rest) -> (l < bound)%nat).

(** * Properties *)

(** ** Rounding of the rationals the script computes *)

Ltac q2z :=
  unfold Qeq, Qle, Qlt, Qminus, Qplus, Qopp, Qdiv, Qmult, Qinv, inject_Z;
  cbn [Qnum Qden Z.sgn]; rewrite ?Pos2Z.inj_mul; lia.

Lemma py_int_comp (x y : Q) : x == y -> py_int x = py_int y.
Proof.
  intros E. unfold py_int.
  rewrite (Qleb_comp 0 0 (Qeq_refl 0) x y E).
  rewrite (Qfloor_comp x y E), (Qceiling_comp x y E). reflexivity.
Qed.

Lemma Qfloor_inject_div (z d : Z) :
  Qfloor (inject_Z z / inject_Z d) = (z / d)%Z.
Proof. symmetry. apply Zdiv_Qdiv. Qed.

Lemma py_int_nonneg_div (z : Z) (d : positive) :
  (0 <= z)%Z -> py_int (inject_Z z / inject_Z (Zpos d)) = (z / Zpos d)%Z.
Proof.
  intros Hz. unfold py_int.
  assert (H : Qle_bool 0 (inject_Z z / inject_Z (Z.pos d)) = true).
  { apply Qle_bool_iff. q2z. }
  rewrite H. apply Qfloor_inject_div.
Qed.

Lemma py_int_middle (z : Z) :
  (0 <= z)%Z -> py_int (inject_Z z / 2) = (z / 2)%Z.
Proof. intros Hz. exact (py_int_nonneg_div 2 Hz). Qed.

Lemma py_int_middle_minus_1 (z : Z) :
  (2 <= z)%Z -> py_int (inject_Z z / 2 - 1) = (z / 2 - 1)%Z.
Proof.
  intros Hz.
  rewrite (@py_int_comp _ (inject_Z (z - 2) / inject_Z 2)).
  - rewrite py_int_nonneg_div by lia.
    replace (z - 2)%Z with (z + (-1) * 2)%Z by lia.
    rewrite Z.div_add by lia. lia.
  - q2z.
Qed.

Lemma py_int_middle_minus_half (z : Z) :
  (1 <= z)%Z -> py_int (inject_Z z / 2 - (1 # 2)) = ((z - 1) / 2)%Z.
Proof.
  intros Hz.
  rewrite (@py_int_comp _ (inject_Z (z - 1) / inject_Z 2)).
  - apply py_int_nonneg_div. lia.
  - q2z.
Qed.

Lemma py_fmod_middle (z : Z) :
  Qeq_bool (py_fmod (inject_Z z / 2) 2) 0 = (z mod 4 =? 0)%Z.
Proof.
  unfold py_fmod.
  assert (F : Qfloor (inject_Z z / 2 / 2) = (z / 4)%Z).
  { rewrite (@Qfloor_comp _ (inject_Z z / inject_Z 4)).
    - apply Qfloor_inject_div.
    - q2z. }
  rewrite F.
  pose proof (Z.div_mod z 4 ltac:(lia)) as D.
  pose proof (Z.mod_pos_bound z 4 ltac:(lia)) as B.
  set (q := (z / 4)%Z) in *.
  destruct (Z.eqb_spec (z mod 4) 0) as [E | E].
  - apply Qeq_bool_iff. q2z.
  - destruct (Qeq_bool _ 0) eqn:Q0; [ | reflexivity ].
    apply Qeq_bool_iff in Q0. exfalso. revert Q0. q2z.
Qed.

Lemma math_ceil_div12 (d : Z) :
  math_ceil (inject_Z d / 12) = ((d + 11) / 12)%Z.
Proof.
  unfold math_ceil, Qceiling.
  rewrite (@Qfloor_comp _ (inject_Z (- d) / inject_Z 12)).
  - rewrite Qfloor_inject_div.
    pose proof (Z.div_mod (- d) 12 ltac:(lia)) as D1.
    pose proof (Z.mod_pos_bound (- d) 12 ltac:(lia)) as B1.
    pose proof (Z.div_mod (d + 11) 12 ltac:(lia)) as D2.
    pose proof (Z.mod_pos_bound (d + 11) 12 ltac:(lia)) as B2.
    lia.
  - q2z.
Qed.

(** ** Indexing *)

Lemma py_getitem_nat {A : Type} (l : list A) (i : nat) (x : A) :
  nth_error l i = Some x -> py_getitem l (Z.of_nat i) = Ok x.
Proof.
  intros H. unfold py_getitem.
  assert (L : (i < length l)%nat) by (apply nth_error_Some; congruence).
  destruct (Z.ltb_spec (Z.of_nat i) 0) as [N | _]; [ lia | ].
  destruct (Z.leb_spec 0 (Z.of_nat i)) as [_ | N]; [ | lia ].
  destruct (Z.ltb_spec (Z.of_nat i) (Z.of_nat (length l))) as [_ | N];
    [ | lia ].
  simpl. rewrite Nat2Z.id, H. reflexivity.
Qed.

Lemma py_getitem_in_range {A : Type} (l : list A) (i : Z) :
  (0 <= i < Z.of_nat (length l))%Z ->
  exists x, py_getitem l i = Ok x /\ nth_error l (Z.to_nat i) = Some x.
Proof.
  intros R.
  destruct (nth_error l (Z.to_nat i)) as [x | ] eqn:E.
  - exists x. split; [ | reflexivity ].
    rewrite <- (Z2Nat.id i) by lia. apply py_getitem_nat. exact E.
  - apply nth_error_None in E. lia.
Qed.

Lemma py_getitem_In {A : Type} (l : list A) (i : Z) (x : A) :
  py_getitem l i = Ok x -> In x l.
Proof.
  unfold py_getitem.
  destruct (_ && _)%bool; [ | discriminate ].
  destruct (nth_error l _) as [y | ] eqn:E; [ | discriminate ].
  intros [= <-]. eapply nth_error_In. exact E.
Qed.

Lemma py_getitem_last {A : Type} (l : list A) (x : A) :
  py_getitem (l ++ [x]) (-1) = Ok x.
Proof.
  unfold py_getitem. rewrite length_app. cbn [length].
  change (-1 <? 0)%Z with true. cbv iota.
  replace (-1 + Z.of_nat (length l + 1))%Z with (Z.of_nat (length l)) by lia.
  destruct (Z.leb_spec 0 (Z.of_nat (length l))) as [_ | N]; [ | lia ].
  destruct (Z.ltb_spec (Z.of_nat (length l)) (Z.of_nat (length l + 1)))
    as [_ | N]; [ | lia ].
  simpl. rewrite Nat2Z.id, nth_error_app2 by lia.
  rewrite Nat.sub_diag. reflexivity.
Qed.

Lemma py_getitem_single {A : Type} (x : A) : py_getitem [x] 0 = Ok x.
Proof. reflexivity. Qed.

Lemma nonempty_snoc {A : Type} (l : list A) :
  (0 < length l)%nat -> exists l' x, l = l' ++ [x].
Proof.
  intros H. destruct (exists_last (l := l)) as (l' & x & E).
  - intros ->. simpl in H. lia.
  - eauto.
Qed.

(** ** The index chosen by the selector *)

Lemma random_choice_pair {A : Type} (a b : A) (g : rng) :
  random_choice [a; b] g =
  Ok (if Nat.even (g 0%nat) then a else b, rng_next g).
Proof.
  unfold random_choice. cbn [length].
  pose proof (Nat.mod_upper_bound (g 0%nat) 2 ltac:(lia)) as B.
  destruct (Nat.even (g 0%nat)) eqn:E.
  - apply Nat.even_spec in E. destruct E as [k E].
    replace (g 0%nat mod 2)%nat with 0%nat; [ reflexivity | ].
    rewrite E, Nat.mul_comm, Nat.Div0.mod_mul. reflexivity.
  - assert (O : Nat.odd (g 0%nat) = true)
      by (rewrite <- Nat.negb_even, E; reflexivity).
    apply Nat.odd_spec in O. destruct O as [k O].
    replace (g 0%nat mod 2)%nat with 1%nat; [ reflexivity | ].
    rewrite O, Nat.add_comm, Nat.mul_comm, Nat.Div0.mod_add. reflexivity.
Qed.

Lemma selected_idx_lowest (len : nat) (g : rng) :
  selected_idx len 0 g = Ok (0%Z, g).
Proof. reflexivity. Qed.

Lemma selected_idx_highest (len : nat) (g : rng) :
  selected_idx len 2 g = Ok ((Z.of_nat len - 1)%Z, g).
Proof. reflexivity. Qed.

Lemma selected_idx_middle (len : nat) (g : rng) :
  (2 <= len)%nat ->
  selected_idx len 1 g =
  if tie len then
    Ok (if Nat.even (g 0%nat) then (Z.of_nat len / 2)%Z
        else (Z.of_nat len / 2 - 1)%Z, rng_next g)
  else Ok (((Z.of_nat len - 1) / 2)%Z, g).
Proof.
  intros L. unfold selected_idx, tie.
  change (negb ((0 <=? 1)%Z && (1 <=? 2)%Z)) with false.
  change (1 =? 0)%Z with false. change (1 =? 1)%Z with true. cbv iota zeta.
  rewrite py_fmod_middle.
  destruct ((Z.of_nat len mod 4 =? 0)%Z || Nat.eqb len 2)%bool.
  - rewrite random_choice_pair, py_int_middle, py_int_middle_minus_1 by lia.
    reflexivity.
  - rewrite py_int_middle_minus_half by lia. reflexivity.
Qed.

Lemma selected_idx_invalid (len : nat) (logic_type : Z) (g : rng) :
  ~ (0 <= logic_type <= 2)%Z ->
  selected_idx len logic_type g = Raise AssertionError.
Proof.
  intros H. unfold selected_idx.
  destruct (Z.leb_spec 0 logic_type), (Z.leb_spec logic_type 2);
    simpl; try reflexivity; lia.
Qed.

Lemma selected_idx_in_range (len : nat) (logic_type : Z) (g : rng) :
  (2 <= len)%nat -> (0 <= logic_type <= 2)%Z ->
  exists i g', selected_idx len logic_type g = Ok (i, g') /\
               (0 <= i < Z.of_nat len)%Z.
Proof.
  intros L R.
  assert (C : logic_type = 0%Z \/ logic_type = 1%Z \/ logic_type = 2%Z)
    by lia.
  destruct C as [-> | [-> | ->]].
  - exists 0%Z, g. split; [ reflexivity | lia ].
  - rewrite selected_idx_middle by exact L.
    pose proof (Z.div_mod (Z.of_nat len) 2 ltac:(lia)) as D.
    pose proof (Z.mod_pos_bound (Z.of_nat len) 2 ltac:(lia)) as B.
    pose proof (Z.div_mod (Z.of_nat len - 1) 2 ltac:(lia)) as D'.
    pose proof (Z.mod_pos_bound (Z.of_nat len - 1) 2 ltac:(lia)) as B'.
    destruct (tie len).
    + eexists _, _. split; [ reflexivity | ].
      destruct (Nat.even (g 0%nat)); lia.
    + eexists _, _. split; [ reflexivity | ]. lia.
  - exists (Z.of_nat len - 1)%Z, g. split; [ reflexivity | lia ].
Qed.

Lemma select_note_from_group_member {A : Type} (group : list A)
  (logic_type : Z) (g : rng) :
  (2 <= length group)%nat -> (0 <= logic_type <= 2)%Z ->
  exists x g', select_note_from_group group logic_type g = Ok (x, g') /\
               In x group.
Proof.
  intros L R. unfold select_note_from_group.
  destruct (selected_idx_in_range g L R) as (i & g' & E & B).
  destruct (py_getitem_in_range group B) as (x & Ex & N).
  exists x, g'. rewrite E. cbn [bind]. rewrite Ex. cbn [bind].
  split; [ reflexivity | ]. eapply nth_error_In. exact N.
Qed.

Lemma select_note_from_group_invalid {A : Type} (group : list A)
  (logic_type : Z) (g : rng) :
  ~ (0 <= logic_type <= 2)%Z ->
  select_note_from_group group logic_type g = Raise AssertionError.
Proof.
  intros H. unfold select_note_from_group.
  rewrite selected_idx_invalid by exact H. reflexivity.
Qed.

(** ** The heap and the range fitter *)

Lemma upd_same (h : heap) (l : loc) (n : Note) : upd h l n l = n.
Proof. unfold upd. rewrite Nat.eqb_refl. reflexivity. Qed.

Lemma upd_other (h : heap) (l l' : loc) (n : Note) :
  l' <> l -> upd h l n l' = h l'.
Proof.
  intros N. unfold upd. destruct (Nat.eqb_spec l' l); congruence.
Qed.

Lemma set_pitch_start (h : heap) (l : loc) (v : Z) (l' : loc) :
  start (set_pitch h l v l') = start (h l').
Proof.
  unfold set_pitch, upd. destruct (Nat.eqb_spec l' l); subst; reflexivity.
Qed.

Lemma set_pitch_end (h : heap) (l : loc) (v : Z) (l' : loc) :
  end_ (set_pitch h l v l') = end_ (h l').
Proof.
  unfold set_pitch, upd. destruct (Nat.eqb_spec l' l); subst; reflexivity.
Qed.

Lemma set_end_start (h : heap) (l : loc) (v : Q) (l' : loc) :
  start (set_end h l v l') = start (h l').
Proof.
  unfold set_end, upd. destruct (Nat.eqb_spec l' l); subst; reflexivity.
Qed.

Lemma set_end_pitch (h : heap) (l : loc) (v : Q) (l' : loc) :
  pitch (set_end h l v l') = pitch (h l').
Proof.
  unfold set_end, upd. destruct (Nat.eqb_spec l' l); subst; reflexivity.
Qed.

Lemma set_end_same (h : heap) (l : loc) (v : Q) :
  end_ (set_end h l v l) = v.
Proof. unfold set_end. rewrite upd_same. reflexivity. Qed.

Lemma set_end_other (h : heap) (l l' : loc) (v : Q) :
  l' <> l -> set_end h l v l' = h l'.
Proof. intros N. unfold set_end. apply upd_other. exact N. Qed.

Lemma fit_start (h : heap) (note : loc) (mn mx : Z) (l : loc) :
  start (fit_to_pitch_range h note mn mx l) = start (h l).
Proof.
  unfold fit_to_pitch_range.
  destruct (_ >? _)%Z; [ apply set_pitch_start | ].
  destruct (_ <? _)%Z; [ apply set_pitch_start | reflexivity ].
Qed.

Lemma fit_end (h : heap) (note : loc) (mn mx : Z) (l : loc) :
  end_ (fit_to_pitch_range h note mn mx l) = end_ (h l).
Proof.
  unfold fit_to_pitch_range.
  destruct (_ >? _)%Z; [ apply set_pitch_end | ].
  destruct (_ <? _)%Z; [ apply set_pitch_end | reflexivity ].
Qed.

Lemma fit_other (h : heap) (note : loc) (mn mx : Z) (l : loc) :
  l <> note -> fit_to_pitch_range h note mn mx l = h l.
Proof.
  intros N. unfold fit_to_pitch_range, set_pitch.
  destruct (_ >? _)%Z; [ apply upd_other; exact N | ].
  destruct (_ <? _)%Z; [ apply upd_other; exact N | reflexivity ].
Qed.

Lemma fit_pitch (h : heap) (note : loc) (mn mx : Z) :
  pitch (fit_to_pitch_range h note mn mx note) =
  let p := pitch (h note) in
  if (p >? mx)%Z then (p - 12 * ((p - mx + 11) / 12))%Z
  else if (p <? mn)%Z then (p + 12 * ((mn - p + 11) / 12))%Z
  else p.
Proof.
  unfold fit_to_pitch_range. cbv zeta.
  destruct (_ >? _)%Z.
  - unfold set_pitch. rewrite upd_same, math_ceil_div12. reflexivity.
  - destruct (_ <? _)%Z; [ | reflexivity ].
    unfold set_pitch. rewrite upd_same, math_ceil_div12. reflexivity.
Qed.

Lemma fit_pitch_in_range (h : heap) (note : loc) (mn mx : Z) :
  (mx - mn >= 11)%Z ->
  in_range mn mx (pitch (fit_to_pitch_range h note mn mx note)).
Proof.
  intros S. rewrite fit_pitch. cbv zeta. unfold in_range.
  set (p := pitch (h note)).
  destruct (Z.gtb_spec p mx) as [G | G].
  - pose proof (Z.div_mod (p - mx + 11) 12 ltac:(lia)).
    pose proof (Z.mod_pos_bound (p - mx + 11) 12 ltac:(lia)). lia.
  - destruct (Z.ltb_spec p mn) as [L | L]; [ | lia ].
    pose proof (Z.div_mod (mn - p + 11) 12 ltac:(lia)).
    pose proof (Z.mod_pos_bound (mn - p + 11) 12 ltac:(lia)). lia.
Qed.

Lemma fit_keeps_in_range (h : heap) (note : loc) (mn mx : Z) (l : loc) :
  (mx - mn >= 11)%Z ->
  in_range mn mx (pitch (h l)) ->
  in_range mn mx (pitch (fit_to_pitch_range h note mn mx l)).
Proof.
  intros S R. destruct (Nat.eq_dec l note) as [-> | N].
  - apply fit_pitch_in_range. exact S.
  - rewrite fit_other by exact N. exact R.
Qed.

(** ** One iteration of the loop *)

Section Iteration.
Variables (range_min range_max logic_type : Z) (add_legato : bool).

Let body := loop_body range_min range_max logic_type add_legato.

Lemma loop_body_iteration (st st' : state) (group : list loc) :
  body st group = Ok st' ->
  iteration range_min range_max add_legato st group st'.
Proof.
  unfold body, loop_body. intros H.
  destruct (if (1 <? length group)%nat
            then select_note_from_group group logic_type (st_rng st)
            else note <- py_getitem group 0;; Ok (note, st_rng st))
    as [[note g] | e] eqn:C; [ | discriminate ].
  assert (M : In note group).
  { destruct (1 <? length group)%nat.
    - unfold select_note_from_group in C.
      destruct (selected_idx _ _ _) as [[i g1] | ]; [ | discriminate ].
      cbn [bind] in C.
      destruct (py_getitem group i) as [x | ] eqn:G; [ | discriminate ].
      cbn [bind] in C. injection C as <- <-.
      eapply py_getitem_In. exact G.
    - destruct (py_getitem group 0) as [x | ] eqn:G; [ | discriminate ].
      cbn [bind] in C. injection C as <- <-.
      eapply py_getitem_In. exact G. }
  cbn [bind] in H.
  destruct (Nat.ltb_spec 0 (length (selected_notes st))) as [L | L].
  - destruct (nonempty_snoc _ L) as (sel & prev & E).
    rewrite E in H. rewrite py_getitem_last in H. cbn [bind] in H.
    destruct (Qle_bool _ _) eqn:Gate; injection H as <-.
    + apply Qle_bool_iff in Gate.
      apply iteration_accept; assumption.
    + apply iteration_drop; try assumption.
      intros Le. apply Qle_bool_iff in Le. congruence.
  - injection H as <-.
    assert (E : selected_notes st = []).
    { destruct (selected_notes st); [ reflexivity | simpl in L; lia ]. }
    rewrite E. apply iteration_first; assumption.
Qed.
End Iteration.

(** ** Lists: neighbours and duplicates *)

Lemma adjacent_nil {A : Type} (R : A -> A -> Prop) : adjacent R [].
Proof. intros i a b H. destruct i; discriminate. Qed.

Lemma adjacent_single {A : Type} (R : A -> A -> Prop) (x : A) :
  adjacent R [x].
Proof. intros i a b _ H. destruct i; discriminate. Qed.

Lemma adjacent_impl {A : Type} (R R' : A -> A -> Prop) (l : list A) :
  (forall a b, R a b -> R' a b) -> adjacent R l -> adjacent R' l.
Proof. intros I H i a b Ha Hb. apply I. exact (H i a b Ha Hb). Qed.

(** In [l ++ [x]] every left neighbour is an element of [l]. *)
Lemma adjacent_impl_init {A : Type} (R R' : A -> A -> Prop) (l : list A)
  (x : A) :
  (forall a b, In a l -> R a b -> R' a b) ->
  adjacent R (l ++ [x]) -> adjacent R' (l ++ [x]).
Proof.
  intros I H i a b Ha Hb. apply I; [ | exact (H i a b Ha Hb) ].
  assert (L : (S i < length (l ++ [x]))%nat)
    by (apply nth_error_Some; congruence).
  rewrite length_app in L. cbn [length] in L.
  rewrite nth_error_app1 in Ha by lia. eapply nth_error_In. exact Ha.
Qed.

Lemma adjacent_snoc {A : Type} (R : A -> A -> Prop) (l : list A) (x y : A) :
  adjacent R (l ++ [x]) -> R x y -> adjacent R ((l ++ [x]) ++ [y]).
Proof.
  intros H Rxy i a b Ha Hb.
  assert (L : (S i < length ((l ++ [x]) ++ [y]))%nat)
    by (apply nth_error_Some; congruence).
  rewrite !length_app in L. cbn [length] in L.
  destruct (Nat.eq_dec i (length l)) as [-> | N].
  - rewrite nth_error_app1 in Ha by (rewrite length_app; simpl; lia).
    rewrite nth_error_app2, Nat.sub_diag in Ha by lia.
    rewrite nth_error_app2 in Hb by (rewrite length_app; simpl; lia).
    rewrite length_app in Hb. cbn [length] in Hb.
    replace (S (length l) - (length l + 1))%nat with 0%nat in Hb by lia.
    simpl in Ha, Hb. congruence.
  - rewrite nth_error_app1 in Ha by (rewrite length_app; simpl; lia).
    rewrite nth_error_app1 in Hb by (rewrite length_app; simpl; lia).
    exact (H i a b Ha Hb).
Qed.

Lemma adjacent_map {A B : Type} (f : A -> B) (R : B -> B -> Prop)
  (l : list A) :
  adjacent (fun a b => R (f a) (f b)) l -> adjacent R (map f l).
Proof.
  intros H i a b Ha Hb. rewrite nth_error_map in Ha, Hb.
  destruct (nth_error l i) as [a' | ] eqn:Ea; [ | discriminate ].
  destruct (nth_error l (S i)) as [b' | ] eqn:Eb; [ | discriminate ].
  simpl in Ha, Hb. injection Ha as <-. injection Hb as <-.
  exact (H i a' b' Ea Eb).
Qed.

Lemma NoDup_app_inv {A : Type} (l1 l2 : list A) :
  NoDup (l1 ++ l2) ->
  NoDup l1 /\ NoDup l2 /\ (forall a, In a l1 -> ~ In a l2).
Proof.
  intros H. split; [ | split ].
  - eapply NoDup_app_remove_r. exact H.
  - eapply NoDup_app_remove_l. exact H.
  - induction l1 as [ | x l1 IH]; intros a Ha; [ contradiction | ].
    simpl in H. inversion H as [ | ? ? Nx Hl]; subst.
    destruct Ha as [<- | Ha].
    + intros I. apply Nx. apply in_or_app. right. exact I.
    + apply IH; assumption.
Qed.

(** Taking a candidate out of the next group keeps locations distinct. *)
Lemma NoDup_pick {A : Type} (sel group rest : list A) (x : A) :
  NoDup (sel ++ group ++ rest) -> In x group ->
  NoDup ((sel ++ [x]) ++ rest).
Proof.
  intros H Ix.
  destruct (NoDup_app_inv _ _ H) as (Hs & Hgr & D).
  destruct (NoDup_app_inv _ _ Hgr) as (Hg & Hr & D').
  apply NoDup_app; [ apply NoDup_app | exact Hr | ].
  - exact Hs.
  - constructor; [ intros [] | constructor ].
  - intros a Ia [E | []]. subst a.
    apply (D x Ia). apply in_or_app. left. exact Ix.
  - intros a Ia Ir. apply in_app_or in Ia. destruct Ia as [Ia | [E | []]].
    + apply (D a Ia). apply in_or_app. right. exact Ir.
    + subst a. exact (D' x Ix Ir).
Qed.

Lemma NoDup_skip {A : Type} (sel group rest : list A) :
  NoDup (sel ++ group ++ rest) -> NoDup (sel ++ rest).
Proof.
  intros H.
  destruct (NoDup_app_inv _ _ H) as (Hs & Hgr & D).
  destruct (NoDup_app_inv _ _ Hgr) as (Hg & Hr & D').
  apply NoDup_app; [ exact Hs | exact Hr | ].
  intros a Ia Ir. apply (D a Ia). apply in_or_app. right. exact Ir.
Qed.

Lemma NoDup_snoc_notin {A : Type} (l : list A) (x : A) :
  NoDup (l ++ [x]) -> ~ In x l.
Proof.
  intros H I. destruct (NoDup_app_inv _ _ H) as (_ & _ & D).
  apply (D x I). left. reflexivity.
Qed.

(** ** The loop invariant *)

Section Invariant.
Variables (range_min range_max : Z) (add_legato : bool) (h0 : heap).

Let inv := invariant range_min range_max add_legato h0.
Let iter := iteration range_min range_max add_legato.

Lemma invariant_init (g : rng) (groups : list (list loc)) :
  NoDup (concat groups) -> inv (mkState h0 [] g) groups.
Proof.
  intros N. constructor; cbn [st_heap selected_notes].
  - exact N.
  - apply adjacent_nil.
  - intros _. apply adjacent_nil.
  - reflexivity.
  - reflexivity.
  - reflexivity.
  - intros _ l [].
Qed.

Lemma invariant_iteration (st st' : state) (group : list loc)
  (rest : list (list loc)) :
  inv st (group :: rest) -> iter st group st' -> inv st' rest.
Proof.
  intros [Hnd Hov Hleg Hst Hel Hen Hpi] It.
  cbn [concat] in Hnd.
  destruct It as [note g M E | note prev sel g M E h Gate
                  | note prev sel g M E h Gate].
  - (* first accepted note *)
    rewrite E in *.
    constructor; cbn [st_heap selected_notes].
    + exact (NoDup_pick _ _ _ _ Hnd M).
    + apply adjacent_single.
    + intros _. apply adjacent_single.
    + intros l. rewrite fit_start. apply Hst.
    + intros l _. rewrite fit_end. apply Hel. intros [].
    + intros L l. rewrite fit_end. apply Hen. exact L.
    + intros S l [<- | []]. apply fit_pitch_in_range. exact S.
  - (* the candidate passes the gate *)
    rewrite E in *.
    assert (Np : ~ In prev sel).
    { apply NoDup_snoc_notin. eapply NoDup_app_remove_r. exact Hnd. }
    assert (Nn : ~ In note (sel ++ [prev])).
    { destruct (NoDup_app_inv _ _ Hnd) as (_ & _ & D).
      intros I. apply (D note I). apply in_or_app. left. exact M. }
    assert (Hs' : forall l,
               start ((if add_legato
                       then set_end h prev (start (h note)) else h) l)
               = start (st_heap st l)).
    { intros l. destruct add_legato.
      - rewrite set_end_start. apply fit_start.
      - apply fit_start. }
    assert (He' : forall l, l <> prev ->
               end_ ((if add_legato
                      then set_end h prev (start (h note)) else h) l)
               = end_ (st_heap st l)).
    { intros l N. destruct add_legato.
      - rewrite set_end_other by exact N. apply fit_end.
      - apply fit_end. }
    constructor; cbn [st_heap selected_notes].
    + exact (NoDup_pick _ _ _ _ Hnd M).
    + apply adjacent_snoc.
      * revert Hov. apply adjacent_impl_init. intros a b Ia R.
        rewrite Hs', He'; [ exact R | ]. intros ->. exact (Np Ia).
      * rewrite Hs'. destruct add_legato.
        -- rewrite set_end_same. unfold h. rewrite fit_start.
           apply Qle_refl.
        -- unfold h in Gate |- *. rewrite fit_start in Gate.
           exact Gate.
    + intros L. apply adjacent_snoc.
      * generalize (Hleg L). apply adjacent_impl_init. intros a b Ia R.
        rewrite Hs', He'; [ exact R | ]. intros ->. exact (Np Ia).
      * rewrite Hs'. rewrite L. rewrite set_end_same.
        unfold h. apply fit_start.
    + intros l. rewrite Hs'. apply Hst.
    + intros l Nl. rewrite removelast_last in Nl.
      rewrite He'.
      * apply Hel. rewrite removelast_last. intros I. apply Nl.
        apply in_or_app. left. exact I.
      * intros ->. apply Nl. apply in_or_app. right. left. reflexivity.
    + intros L l. rewrite L. unfold h. rewrite fit_end.
      apply Hen. exact L.
    + intros S l I.
      assert (P : in_range range_min range_max (pitch (h l))).
      { apply in_app_or in I. destruct I as [I | [<- | []]].
        - unfold h. apply fit_keeps_in_range; [ exact S | ].
          apply Hpi; assumption.
        - apply fit_pitch_in_range. exact S. }
      destruct add_legato; [ rewrite set_end_pitch | ]; exact P.
  - (* the candidate is dropped *)
    rewrite E in *.
    constructor; cbn [st_heap selected_notes].
    + exact (NoDup_skip _ _ _ Hnd).
    + revert Hov. apply adjacent_impl. intros a b R. unfold h.
      rewrite fit_start, fit_end. exact R.
    + intros L. generalize (Hleg L). apply adjacent_impl.
      intros a b R. unfold h. rewrite fit_start, fit_end. exact R.
    + intros l. unfold h. rewrite fit_start. apply Hst.
    + intros l Nl. unfold h. rewrite fit_end. apply Hel. exact Nl.
    + intros L l. unfold h. rewrite fit_end. apply Hen. exact L.
    + intros S l I. unfold h. apply fit_keeps_in_range; [ exact S | ].
      apply Hpi; assumption.
Qed.

Lemma invariant_for_each (logic_type : Z) (groups : list (list loc))
  (st st' : state) :
  inv st groups ->
  for_each range_min range_max logic_type add_legato groups st = Ok st' ->
  inv st' [].
Proof.
  revert st. induction groups as [ | group rest IH]; intros st I H.
  - injection H as <-. exact I.
  - cbn [for_each] in H.
    destruct (loop_body _ _ _ _ st group) as [st1 | ] eqn:B;
      [ | discriminate ].
    cbn [bind] in H. apply (IH st1); [ | exact H ].
    eapply invariant_iteration; [ exact I | ].
    eapply loop_body_iteration. exact B.
Qed.
End Invariant.

(** ** Sorting and grouping *)

Section SortedFacts.
Variables (A K : Type) (key : A -> K) (ltb : K -> K -> bool).

Lemma insert_sorted_perm (x : A) (l : list A) :
  Permutation (insert_sorted key ltb x l) (x :: l).
Proof.
  induction l as [ | y t IH]; cbn [insert_sorted].
  - apply Permutation_refl.
  - destruct (ltb (key y) (key x)).
    + eapply perm_trans; [ apply perm_skip; exact IH | apply perm_swap ].
    + apply Permutation_refl.
Qed.

Lemma sorted_perm (l : list A) : Permutation (sorted key ltb l) l.
Proof.
  induction l as [ | x t IH]; cbn [sorted].
  - apply perm_nil.
  - eapply perm_trans; [ apply insert_sorted_perm | ].
    apply perm_skip. exact IH.
Qed.
End SortedFacts.

Lemma py_set_incl (l : list Q) (x : Q) : In x (py_set l) -> In x l.
Proof.
  induction l as [ | y t IH]; cbn [py_set]; [ tauto | ].
  destruct (existsb (Qeq_bool y) t).
  - intros I. right. exact (IH I).
  - intros [<- | I]; [ left; reflexivity | right; exact (IH I) ].
Qed.


Lemma py_set_distinct (l : list Q) : NoDupA Qeq (py_set l).
Proof.
  induction l as [ | y t IH]; cbn [py_set]; [ constructor | ].
  destruct (existsb (Qeq_bool y) t) eqn:E; [ exact IH | ].
  constructor; [ | exact IH ].
  intros I. apply InA_alt in I. destruct I as (z & Eq & Iz).
  apply py_set_incl in Iz.
  assert (T : existsb (Qeq_bool y) t = true).
  { apply existsb_exists. exists z. split; [ exact Iz | ].
    apply Qeq_bool_iff. exact Eq. }
  congruence.
Qed.

Section Groups.
Variables (h : heap) (midi_list : list loc).

Let values := start_values h midi_list.
Let groups := group_by_start_time h midi_list.

Lemma start_values_distinct : NoDupA Qeq values.
Proof.
  unfold values, start_values.
  eapply PermutationA_preserves_NoDupA; [ exact Q_Setoid | | ].
  - apply Permutation_PermutationA; [ exact Q_Setoid | ].
    apply Permutation_sym. apply sorted_perm.
  - apply py_set_distinct.
Qed.

Lemma start_values_start (x : Q) :
  In x values -> exists y, In y midi_list /\ x = start (h y).
Proof.
  unfold values, start_values. intros I.
  apply (Permutation_in _ (sorted_perm _ _ _)) in I.
  apply py_set_incl in I. apply in_map_iff in I.
  destruct I as (y & E & Iy). exists y. split; [ exact Iy | ].
  symmetry. exact E.
Qed.



Lemma groups_nonempty (group : list loc) :
  In group groups -> (1 <= length group)%nat.
Proof.
  unfold groups, group_by_start_time. intros I.
  apply in_map_iff in I. destruct I as (x & <- & Ix).
  destruct (start_values_start _ Ix) as (y & Iy & ->).
  assert (F : In y (filter (fun y0 => Qeq_bool (start (h y0))
                                        (start (h y))) midi_list)).
  { apply filter_In. split; [ exact Iy | apply Qeq_bool_refl ]. }
  destruct (filter _ midi_list); [ contradiction | simpl; lia ].
Qed.

Lemma groups_members (group : list loc) (l : loc) :
  In group groups -> In l group -> In l midi_list.
Proof.
  unfold groups, group_by_start_time. intros I Il.
  apply in_map_iff in I. destruct I as (x & <- & _).
  apply filter_In in Il. tauto.
Qed.

Lemma concat_groups_members (l : loc) :
  In l (concat groups) -> In l midi_list.
Proof.
  intros I. apply in_concat in I. destruct I as (group & Ig & Il).
  eapply groups_members; eassumption.
Qed.

Lemma groups_disjoint : NoDup midi_list -> NoDup (concat groups).
Proof.
  intros N. unfold groups, group_by_start_time.
  generalize start_values_distinct. fold values.
  induction values as [ | x vs IH]; intros D; cbn [map concat].
  - constructor.
  - inversion D as [ | ? ? Nx Dvs]; subst.
    apply NoDup_app.
    + apply NoDup_filter. exact N.
    + apply IH. exact Dvs.
    + intros a Ia Ic. apply filter_In in Ia. destruct Ia as [_ Ea].
      apply in_concat in Ic. destruct Ic as (group & Ig & Il).
      apply in_map_iff in Ig. destruct Ig as (x' & <- & Ix').
      apply filter_In in Il. destruct Il as [_ Ea'].
      apply Qeq_bool_iff in Ea, Ea'. apply Nx.
      apply InA_alt. exists x'. split; [ | exact Ix' ].
      rewrite <- Ea. exact Ea'.
Qed.
End Groups.

(** The locations of the sorted [midi_list] are those allocated by the
    reading loop. *)
Lemma sort_midi_list_perm (h : heap) (n : nat) :
  Permutation (sort_midi_list h (seq 0 n)) (seq 0 n).
Proof. apply sorted_perm. Qed.

Lemma sort_midi_list_NoDup (h : heap) (n : nat) :
  NoDup (sort_midi_list h (seq 0 n)).
Proof.
  eapply Permutation_NoDup.
  - apply Permutation_sym. apply sort_midi_list_perm.
  - apply seq_NoDup.
Qed.

Lemma sort_midi_list_bound (h : heap) (n : nat) (l : loc) :
  In l (sort_midi_list h (seq 0 n)) -> (l < n)%nat.
Proof.
  intros I. apply (Permutation_in _ (sort_midi_list_perm h n)) in I.
  apply in_seq in I. lia.
Qed.

Lemma sort_midi_list_length (h : heap) (n : nat) :
  length (sort_midi_list h (seq 0 n)) = n.
Proof.
  rewrite (Permutation_length (sort_midi_list_perm h n)).
  apply length_seq.
Qed.

Lemma alloc_scaled (midi_data : list (list PrettyNote)) (tm : Q) (l : loc) :
  (l < length (read_notes midi_data tm))%nat ->
  exists e, In e (concat midi_data) /\
            nth_error (concat midi_data) l = Some e /\
            alloc (read_notes midi_data tm) l = scale_note tm e.
Proof.
  unfold read_notes, alloc. rewrite length_map. intros L.
  destruct (nth_error (concat midi_data) l) as [e | ] eqn:E.
  - exists e. split; [ eapply nth_error_In; exact E | ].
    split; [ reflexivity | ].
    apply nth_error_nth. rewrite nth_error_map, E. reflexivity.
  - apply nth_error_None in E. lia.
Qed.

(** ** Outcome of the loop *)

Section Outcome.
Variables (range_min range_max logic_type : Z) (add_legato : bool).

Let body := loop_body range_min range_max logic_type add_legato.
Let loop := for_each range_min range_max logic_type add_legato.

Lemma loop_body_gate (st : state) (note : loc) (g : rng) :
  exists st',
    (let h := fit_to_pitch_range (st_heap st) note range_min range_max in
     if (0 <? length (selected_notes st))%nat then
       let note_start_time := start (h note) in
       prev <- py_getitem (selected_notes st) (-1) ;;
       let previous_group_end_time := end_ (h prev) in
       if Qle_bool previous_group_end_time note_start_time then
         let h' := if add_legato then set_end h prev note_start_time
                   else h in
         Ok (mkState h' (selected_notes st ++ [note]) g)
       else Ok (mkState h (selected_notes st) g)
     else Ok (mkState h (selected_notes st ++ [note]) g)) = Ok st'.
Proof.
  cbv zeta.
  destruct (Nat.ltb_spec 0 (length (selected_notes st))) as [L | L].
  - destruct (nonempty_snoc _ L) as (sel & prev & ->).
    rewrite py_getitem_last. cbn [bind].
    destruct (Qle_bool _ _); eexists; reflexivity.
  - eexists; reflexivity.
Qed.

Lemma loop_body_total (st : state) (group : list loc) :
  (1 <= length group)%nat ->
  ((2 <= length group)%nat -> valid_logic_type logic_type) ->
  exists st', body st group = Ok st'.
Proof.
  intros L V. unfold body, loop_body.
  destruct (Nat.ltb_spec 1 (length group)) as [P | P].
  - destruct (select_note_from_group_member group (st_rng st) P (V P))
      as (x & g' & -> & _).
    cbn [bind]. apply loop_body_gate.
  - destruct group as [ | x [ | y t]]; simpl in L, P; try lia.
    rewrite py_getitem_single. cbn [bind]. apply loop_body_gate.
Qed.

Lemma loop_body_invalid (st : state) (group : list loc) :
  (2 <= length group)%nat -> ~ valid_logic_type logic_type ->
  body st group = Raise AssertionError.
Proof.
  intros P V. unfold body, loop_body.
  destruct (Nat.ltb_spec 1 (length group)) as [_ | N]; [ | lia ].
  rewrite select_note_from_group_invalid by exact V. reflexivity.
Qed.

Lemma for_each_total (groups : list (list loc)) (st : state) :
  (forall group, In group groups -> (1 <= length group)%nat) ->
  valid_logic_type logic_type \/ polyphonic groups = false ->
  exists st', loop groups st = Ok st'.
Proof.
  revert st. induction groups as [ | group rest IH]; intros st NE V.
  - eexists; reflexivity.
  - unfold loop. cbn [for_each].
    destruct (loop_body_total st group) as (st1 & E).
    + apply NE. left. reflexivity.
    + intros P. destruct V as [V | V]; [ exact V | ].
      cbn [polyphonic existsb] in V. apply orb_false_elim in V.
      destruct V as [V _]. apply Nat.ltb_ge in V. lia.
    + unfold body in E. rewrite E. cbn [bind]. apply IH.
      * intros g I. apply NE. right. exact I.
      * destruct V as [V | V]; [ left; exact V | right ].
        cbn [polyphonic existsb] in V. apply orb_false_elim in V.
        tauto.
Qed.

Lemma for_each_invalid (groups : list (list loc)) (st : state) :
  (forall group, In group groups -> (1 <= length group)%nat) ->
  ~ valid_logic_type logic_type -> polyphonic groups = true ->
  loop groups st = Raise AssertionError.
Proof.
  revert st. induction groups as [ | group rest IH]; intros st NE V P.
  - discriminate.
  - unfold loop. cbn [for_each].
    destruct (Nat.ltb_spec 1 (length group)) as [L | L].
    + pose proof (loop_body_invalid st group L V) as E.
      unfold body in E. rewrite E. reflexivity.
    + destruct (loop_body_total st group) as (st1 & E).
      * apply NE. left. reflexivity.
      * intros; lia.
      * unfold body in E. rewrite E. cbn [bind]. apply IH.
        -- intros g I. apply NE. right. exact I.
        -- exact V.
        -- cbn [polyphonic existsb] in P.
           apply orb_true_iff in P. destruct P as [P | P]; [ | exact P ].
           apply Nat.ltb_lt in P. lia.
Qed.

Lemma iteration_count (st st' : state) (group : list loc) :
  iteration range_min range_max add_legato st group st' ->
  (length (selected_notes st') <= length (selected_notes st) + 1)%nat /\
  (forall l, In l (selected_notes st') ->
             In l (selected_notes st) \/ In l group).
Proof.
  intros [note g M E | note prev sel g M E h Gate
          | note prev sel g M E h Gate];
    rewrite E; cbn [selected_notes].
  - split; [ simpl; lia | ].
    intros l [<- | []]. right. exact M.
  - split; [ rewrite !length_app; simpl; lia | ].
    intros l I. apply in_app_or in I.
    destruct I as [I | [<- | []]]; [ left; exact I | right; exact M ].
  - split; [ lia | ]. intros l I. left. exact I.
Qed.

Lemma for_each_count (groups : list (list loc)) (st st' : state) :
  loop groups st = Ok st' ->
  (length (selected_notes st') <=
     length (selected_notes st) + length groups)%nat /\
  (forall l, In l (selected_notes st') ->
             In l (selected_notes st) \/ In l (concat groups)).
Proof.
  revert st. induction groups as [ | group rest IH]; intros st H.
  - injection H as <-. split; [ simpl; lia | tauto ].
  - unfold loop in H. cbn [for_each] in H.
    destruct (loop_body _ _ _ _ st group) as [st1 | ] eqn:B;
      [ | discriminate ].
    cbn [bind] in H. apply loop_body_iteration in B.
    destruct (iteration_count B) as (C1 & M1).
    destruct (IH st1 H) as (C2 & M2).
    split; [ cbn [length]; lia | ].
    intros l I. cbn [concat]. destruct (M2 l I) as [J | J].
    + destruct (M1 l J) as [K | K]; [ left; exact K | right ].
      apply in_or_app. left. exact K.
    + right. apply in_or_app. right. exact J.
Qed.
End Outcome.

(** ** The whole pipeline *)

Section Pipeline.
Variables (midi_data : list (list PrettyNote)) (range_min range_max : Z)
          (time_multiplier : Q) (logic_type : Z) (add_legato : bool)
          (g : rng).

Let notes := read_notes midi_data time_multiplier.
Let h0 := alloc notes.
Let groups := time_groups midi_data time_multiplier.
Let run := select_notes midi_data range_min range_max time_multiplier
             logic_type add_legato g.

Lemma select_notes_unfold :
  run = for_each range_min range_max logic_type add_legato groups
          (mkState h0 [] g).
Proof. reflexivity. Qed.

Lemma read_notes_length : length notes = length (concat midi_data).
Proof. unfold notes, read_notes. apply length_map. Qed.

Lemma time_groups_nonempty (group : list loc) :
  In group groups -> (1 <= length group)%nat.
Proof. apply groups_nonempty. Qed.

Lemma time_groups_disjoint : NoDup (concat groups).
Proof. apply groups_disjoint. apply sort_midi_list_NoDup. Qed.

Lemma time_groups_bound (l : loc) :
  In l (concat groups) -> (l < length (concat midi_data))%nat.
Proof.
  intros I. apply concat_groups_members in I.
  apply sort_midi_list_bound in I. rewrite <- read_notes_length. exact I.
Qed.


Lemma select_notes_invariant (st : state) :
  run = Ok st ->
  invariant range_min range_max add_legato h0 st [] /\
  (length (selected_notes st) <= length groups)%nat /\
  (forall l, In l (selected_notes st) ->
             (l < length (concat midi_data))%nat).
Proof.
  rewrite select_notes_unfold. intros H. split; [ | split ].
  - eapply invariant_for_each; [ | exact H ].
    apply invariant_init. apply time_groups_disjoint.
  - apply for_each_count in H. cbn [selected_notes length] in H. lia.
  - intros l I. apply for_each_count in H. destruct H as [_ M].
    destruct (M l I) as [[] | J]. apply time_groups_bound. exact J.
Qed.

Lemma select_notes_total :
  valid_logic_type logic_type \/ polyphonic groups = false ->
  exists st, run = Ok st.
Proof.
  intros V. rewrite select_notes_unfold.
  apply for_each_total; [ apply time_groups_nonempty | exact V ].
Qed.

Lemma select_notes_invalid :
  ~ valid_logic_type logic_type -> polyphonic groups = true ->
  run = Raise AssertionError.
Proof.
  intros V P. rewrite select_notes_unfold.
  apply for_each_invalid; [ apply time_groups_nonempty | | ]; assumption.
Qed.

Lemma valid_logic_type_dec :
  {valid_logic_type logic_type} + {~ valid_logic_type logic_type}.
Proof.
  unfold valid_logic_type.
  destruct (Z_le_dec 0 logic_type), (Z_le_dec logic_type 2);
    [ left | right | right | right ]; lia.
Qed.

(** The run ends in one of two ways. *)
Lemma select_notes_outcome :
  (exists st, run = Ok st) \/
  (run = Raise AssertionError /\ ~ valid_logic_type logic_type /\
   polyphonic groups = true).
Proof.
  destruct valid_logic_type_dec as [V | V].
  - left. apply select_notes_total. left. exact V.
  - destruct (polyphonic groups) eqn:P.
    + right. split; [ | split ]; try assumption; try reflexivity.
      apply select_notes_invalid; assumption.
    + left. apply select_notes_total. right. exact P.
Qed.

Lemma midi_postprocessing_outcome :
  (exists st, run = Ok st /\
     midi_postprocessing midi_data range_min range_max time_multiplier
       logic_type add_legato g
     = Ok (out_notes st, length (selected_notes st))) \/
  (midi_postprocessing midi_data range_min range_max time_multiplier
     logic_type add_legato g = Raise AssertionError /\
   ~ valid_logic_type logic_type /\ polyphonic groups = true).
Proof.
  unfold midi_postprocessing. fold run.
  destruct select_notes_outcome as [(st & E) | (E & V & P)].
  - left. exists st. rewrite E. split; reflexivity.
  - right. rewrite E. split; [ reflexivity | split; assumption ].
Qed.
End Pipeline.

(** * The claims *)

(** ** C1: no overlap *)

Lemma out_notes_adjacent (R : Q -> Q -> Prop) (st : state) :
  adjacent (fun a b => R (end_ (st_heap st a)) (start (st_heap st b)))
           (selected_notes st) ->
  adjacent (fun a b => R (pm_end a) (pm_start b)) (out_notes st).
Proof.
  intros H. unfold out_notes.
  apply adjacent_map with (R := fun a b => R (pm_end a) (pm_start b)).
  exact H.
Qed.

Lemma iteration_appended (mn mx : Z) (leg : bool) (st st' : state)
  (group sel : list loc) (prev note : loc) :
  iteration mn mx leg st group st' ->
  selected_notes st = sel ++ [prev] ->
  selected_notes st' = selected_notes st ++ [note] ->
  let h := fit_to_pitch_range (st_heap st) note mn mx in
  end_ (h prev) <= start (h note) /\
  st_heap st' = (if leg then set_end h prev (start (h note)) else h).
Proof.
  intros It Es Ea.
  destruct It as [n g M E | n p s g M E h Gate | n p s g M E h Gate];
    cbn [selected_notes st_heap] in Ea.
  - rewrite E in Es. destruct sel; discriminate.
  - rewrite E in Ea. apply app_inj_tail in Ea. destruct Ea as [_ <-].
    rewrite E in Es. apply app_inj_tail in Es. destruct Es as [_ <-].
    split; [ exact Gate | reflexivity ].
  - rewrite E in Ea. apply (f_equal (@length loc)) in Ea.
    rewrite !length_app in Ea. simpl in Ea. lia.
Qed.

Lemma loop_body_candidate (mn mx lt : Z) (leg : bool) (st : state)
  (group : list loc) (note : loc) (g' : rng) :
  candidate group lt (st_rng st) = Ok (note, g') ->
  loop_body mn mx lt leg st group = gate mn mx leg st note g'.
Proof.
  intros C.
  change (loop_body mn mx lt leg st group)
    with ('(n, g) <- candidate group lt (st_rng st) ;;
          gate mn mx leg st n g).
  rewrite C. reflexivity.
Qed.

Lemma gate_after_accepted (mn mx : Z) (leg : bool) (st : state)
  (sel : list loc) (prev note : loc) (g : rng) :
  selected_notes st = sel ++ [prev] ->
  gate mn mx leg st note g =
  let h := fit_to_pitch_range (st_heap st) note mn mx in
  if Qle_bool (end_ (st_heap st prev)) (start (st_heap st note)) then
    Ok (mkState (if leg then set_end h prev (start (st_heap st note))
                 else h)
                (selected_notes st ++ [note]) g)
  else Ok (mkState h (selected_notes st) g).
Proof.
  intros E. unfold gate. cbv zeta. rewrite E.
  destruct (Nat.ltb_spec 0 (length (sel ++ [prev]))) as [_ | L].
  - rewrite py_getitem_last. cbn [bind]. rewrite fit_start, fit_end.
    reflexivity.
  - rewrite length_app in L. simpl in L. lia.
Qed.

(** C1.  Whatever the input and the parameters, the run either raises the
    assertion error of an invalid policy or returns a sequence in which
    every note ends no later than its right neighbour starts.  In the
    loop, after a note has been accepted: a candidate is appended only
    when its start does not precede the end of the previously accepted
    note; a candidate whose start precedes that end is dropped, the
    iteration leaving the selected notes, and every start and end on the
    heap, as they were; a candidate whose start does not precede it is
    appended. *)
Theorem no_overlap :
  (forall midi_data range_min range_max time_multiplier logic_type
          add_legato g,
     match midi_postprocessing midi_data range_min range_max
             time_multiplier logic_type add_legato g with
     | Ok (out, _) => adjacent (fun a b => pm_end a <= pm_start b) out
     | Raise e => e = AssertionError /\ ~ valid_logic_type logic_type
     end) /\
  (forall range_min range_max logic_type add_legato st group st' sel prev
          note,
     loop_body range_min range_max logic_type add_legato st group = Ok st' ->
     selected_notes st = sel ++ [prev] ->
     selected_notes st' = selected_notes st ++ [note] ->
     end_ (st_heap st prev) <= start (st_heap st note)) /\
  (forall range_min range_max logic_type add_legato st group sel prev
          note g',
     candidate group logic_type (st_rng st) = Ok (note, g') ->
     selected_notes st = sel ++ [prev] ->
     start (st_heap st note) < end_ (st_heap st prev) ->
     exists st',
       loop_body range_min range_max logic_type add_legato st group
       = Ok st' /\
       selected_notes st' = selected_notes st /\
       (forall l, start (st_heap st' l) = start (st_heap st l) /\
                  end_ (st_heap st' l) = end_ (st_heap st l))) /\
  (forall range_min range_max logic_type add_legato st group sel prev
          note g',
     candidate group logic_type (st_rng st) = Ok (note, g') ->
     selected_notes st = sel ++ [prev] ->
     end_ (st_heap st prev) <= start (st_heap st note) ->
     exists st',
       loop_body range_min range_max logic_type add_legato st group
       = Ok st' /\
       selected_notes st' = selected_notes st ++ [note]).
Proof.
  split; [ | split; [ | split ] ].
  - intros md mn mx tm lt leg g.
    destruct (midi_postprocessing_outcome md mn mx tm lt leg g)
      as [(st & R & ->) | (-> & V & _)]; [ | tauto ].
    apply (out_notes_adjacent Qle).
    apply select_notes_invariant in R. destruct R as [I _].
    exact (inv_no_overlap I).
  - intros mn mx lt leg st group st' sel prev note B Es Ea.
    apply loop_body_iteration in B.
    destruct (@iteration_appended _ _ _ _ _ _ _ _ _ B Es Ea) as [Gate _].
    rewrite fit_start, fit_end in Gate. exact Gate.
  - intros mn mx lt leg st group sel prev note g' C Es Lt.
    rewrite (@loop_body_candidate mn mx lt leg st group note g' C).
    rewrite (@gate_after_accepted mn mx leg st sel prev note g' Es).
    cbv zeta.
    destruct (Qle_bool (end_ (st_heap st prev)) (start (st_heap st note)))
      eqn:G.
    + apply Qle_bool_iff in G. exfalso. exact (Qlt_not_le _ _ Lt G).
    + eexists. split; [ reflexivity | ]. cbn [selected_notes st_heap].
      split; [ reflexivity | ]. intros l.
      rewrite fit_start, fit_end. split; reflexivity.
  - intros mn mx lt leg st group sel prev note g' C Es Le.
    rewrite (@loop_body_candidate mn mx lt leg st group note g' C).
    rewrite (@gate_after_accepted mn mx leg st sel prev note g' Es).
    cbv zeta.
    apply Qle_bool_iff in Le. rewrite Le.
    eexists. split; reflexivity.
Qed.

Lemma no_overlap_witness :
  (loop_body 48 72 1 true (mkState heap_gap [0%nat] g0) [1%nat]
   = Ok (mkState (set_end heap_gap 0%nat (start (heap_gap 1%nat)))
                 [0%nat; 1%nat] g0) /\
   end_ (heap_gap 0%nat) <= start (heap_gap 1%nat)) /\
  (candidate [1%nat] 1 g0 = Ok (1%nat, g0) /\
   start (heap_overlap 1%nat) < end_ (heap_overlap 0%nat) /\
   exists st',
     loop_body 48 72 1 true (mkState heap_overlap [0%nat] g0) [1%nat]
     = Ok st' /\
     selected_notes st' = [0%nat] /\
     (forall l, start (st_heap st' l) = start (heap_overlap l) /\
                end_ (st_heap st' l) = end_ (heap_overlap l))).
Proof.
  assert (E : loop_body 48 72 1 true (mkState heap_gap [0%nat] g0) [1%nat]
              = Ok (mkState (set_end heap_gap 0%nat (start (heap_gap 1%nat)))
                            [0%nat; 1%nat] g0)) by reflexivity.
  assert (C : candidate [1%nat] 1 g0 = Ok (1%nat, g0)) by reflexivity.
  assert (L : start (heap_overlap 1%nat) < end_ (heap_overlap 0%nat))
    by reflexivity.
  split.
  - split; [ exact E | ].
    exact (proj1 (proj2 no_overlap) 48%Z 72%Z 1%Z true _ _ _ [] 0%nat
             1%nat E eq_refl eq_refl).
  - split; [ exact C | ]. split; [ exact L | ].
    exact (proj1 (proj2 (proj2 no_overlap)) 48%Z 72%Z 1%Z true
             (mkState heap_overlap [0%nat] g0) [1%nat] [] 0%nat 1%nat g0
             C eq_refl L).
Defined.

(** ** C2: range containment *)

(** C2.  When the range spans at least eleven semitones, the fitter leaves
    the pitch of its note inside [[range_min, range_max]], and every note
    of the sequence the run returns has its pitch in that range. *)
Theorem range_containment (range_min range_max : Z) :
  (range_max - range_min >= 11)%Z ->
  (forall h note,
     in_range range_min range_max
       (pitch (fit_to_pitch_range h note range_min range_max note))) /\
  (forall midi_data time_multiplier logic_type add_legato g,
     match midi_postprocessing midi_data range_min range_max
             time_multiplier logic_type add_legato g with
     | Ok (out, _) =>
         Forall (fun n => in_range range_min range_max (pm_pitch n)) out
     | Raise e => e = AssertionError /\ ~ valid_logic_type logic_type
     end).
Proof.
  intros S. split.
  - intros h note. apply fit_pitch_in_range. exact S.
  - intros md tm lt leg g.
    destruct (midi_postprocessing_outcome md range_min range_max tm lt leg g)
      as [(st & R & ->) | (-> & V & _)]; [ | tauto ].
    apply select_notes_invariant in R. destruct R as [I _].
    unfold out_notes. apply Forall_map. apply Forall_forall.
    intros l Il. cbn [pm_pitch]. exact (inv_pitch I S l Il).
Qed.

Lemma range_containment_witness :
  (72 - 48 >= 11)%Z /\
  in_range 48 72
    (pitch (fit_to_pitch_range (alloc [mkNote 0 1 90]) 0%nat 48 72 0%nat)).
Proof.
  assert (S : (72 - 48 >= 11)%Z) by lia.
  split; [ exact S | ].
  exact (proj1 (range_containment 48 72 S) (alloc [mkNote 0 1 90]) 0%nat).
Defined.

(** ** C3: legato closure *)

(** C3.  With legato enabled, in the returned sequence the end of every
    note is the start of its right neighbour; and when the loop appends a
    candidate after an accepted note, the end of that note has been
    rewritten to the start of the candidate, which is itself unchanged. *)
Theorem legato_closure :
  (forall midi_data range_min range_max time_multiplier logic_type g,
     match midi_postprocessing midi_data range_min range_max
             time_multiplier logic_type true g with
     | Ok (out, _) => adjacent (fun a b => pm_end a = pm_start b) out
     | Raise e => e = AssertionError /\ ~ valid_logic_type logic_type
     end) /\
  (forall range_min range_max logic_type st group st' sel prev note,
     loop_body range_min range_max logic_type true st group = Ok st' ->
     selected_notes st = sel ++ [prev] ->
     selected_notes st' = selected_notes st ++ [note] ->
     end_ (st_heap st' prev) = start (st_heap st' note) /\
     start (st_heap st' note) = start (st_heap st note)).
Proof.
  split.
  - intros md mn mx tm lt g.
    destruct (midi_postprocessing_outcome md mn mx tm lt true g)
      as [(st & R & ->) | (-> & V & _)]; [ | tauto ].
    apply (out_notes_adjacent (@eq Q)).
    apply select_notes_invariant in R. destruct R as [I _].
    exact (inv_legato I eq_refl).
  - intros mn mx lt st group st' sel prev note B Es Ea.
    apply loop_body_iteration in B.
    destruct (@iteration_appended _ _ _ _ _ _ _ _ _ B Es Ea) as [_ ->].
    rewrite set_end_same, set_end_start, fit_start. split; reflexivity.
Qed.

Lemma legato_closure_witness :
  loop_body 48 72 1 true (mkState heap_gap [0%nat] g0) [1%nat]
  = Ok (mkState (set_end heap_gap 0%nat (start (heap_gap 1%nat)))
                [0%nat; 1%nat] g0) /\
  end_ (set_end heap_gap 0%nat (start (heap_gap 1%nat)) 0%nat)
  = start (set_end heap_gap 0%nat (start (heap_gap 1%nat)) 1%nat).
Proof.
  assert (E : loop_body 48 72 1 true (mkState heap_gap [0%nat] g0) [1%nat]
              = Ok (mkState (set_end heap_gap 0%nat (start (heap_gap 1%nat)))
                            [0%nat; 1%nat] g0)) by reflexivity.
  split; [ exact E | ].
  exact (proj1 (proj2 legato_closure 48%Z 72%Z 1%Z _ _ _ [] 0%nat 1%nat E
                  eq_refl eq_refl)).
Defined.

(** ** C4: the formula of the range fitter *)

(** C4.  With [p] the pitch of the note: above [range_max] the pitch becomes
    [p - 12 * k] for [k] the ceiling of [(p - range_max) / 12]; otherwise,
    below [range_min], it becomes [p + 12 * k] for [k] the ceiling of
    [(range_min - p) / 12]; otherwise the heap is unchanged.  Pitch 90 in
    [[48, 72]] becomes 66.  The result is not checked again: in [[60, 62]]
    pitch 70 becomes 58 and stays below the range. *)
Theorem fit_to_pitch_range_formula :
  (forall h note range_min range_max,
     let p := pitch (h note) in
     let h' := fit_to_pitch_range h note range_min range_max in
     ((p > range_max)%Z ->
      exists k, (12 * (k - 1) < p - range_max <= 12 * k)%Z /\
                h' = set_pitch h note (p - 12 * k)%Z) /\
     ((p <= range_max)%Z -> (p < range_min)%Z ->
      exists k, (12 * (k - 1) < range_min - p <= 12 * k)%Z /\
                h' = set_pitch h note (p + 12 * k)%Z) /\
     ((range_min <= p <= range_max)%Z -> h' = h)) /\
  pitch (fit_to_pitch_range (alloc [mkNote 0 1 90]) 0%nat 48 72 0%nat)
  = 66%Z /\
  pitch (fit_to_pitch_range (alloc [mkNote 0 1 70]) 0%nat 60 62 0%nat)
  = 58%Z.
Proof.
  split; [ | split; reflexivity ].
  intros h note mn mx p h'. subst h'. unfold fit_to_pitch_range. fold p.
  cbv zeta. split; [ | split ].
  - intros G. destruct (Z.gtb_spec p mx) as [_ | N]; [ | lia ].
    exists ((p - mx + 11) / 12)%Z. rewrite math_ceil_div12.
    split; [ | reflexivity ].
    pose proof (Z.div_mod (p - mx + 11) 12 ltac:(lia)).
    pose proof (Z.mod_pos_bound (p - mx + 11) 12 ltac:(lia)). lia.
  - intros G L. destruct (Z.gtb_spec p mx) as [N | _]; [ lia | ].
    destruct (Z.ltb_spec p mn) as [_ | N]; [ | lia ].
    exists ((mn - p + 11) / 12)%Z. rewrite math_ceil_div12.
    split; [ | reflexivity ].
    pose proof (Z.div_mod (mn - p + 11) 12 ltac:(lia)).
    pose proof (Z.mod_pos_bound (mn - p + 11) 12 ltac:(lia)). lia.
  - intros R. destruct (Z.gtb_spec p mx) as [N | _]; [ lia | ].
    destruct (Z.ltb_spec p mn) as [N | _]; [ lia | reflexivity ].
Qed.

Lemma fit_to_pitch_range_formula_witness :
  (90 > 72)%Z /\
  exists k, (12 * (k - 1) < 90 - 72 <= 12 * k)%Z /\
            fit_to_pitch_range (alloc [mkNote 0 1 90]) 0%nat 48 72
            = set_pitch (alloc [mkNote 0 1 90]) 0%nat (90 - 12 * k)%Z.
Proof.
  assert (G : (90 > 72)%Z) by lia.
  split; [ exact G | ].
  exact (proj1 (proj1 fit_to_pitch_range_formula
                  (alloc [mkNote 0 1 90]) 0%nat 48%Z 72%Z) G).
Defined.

(** ** C5: the three policies *)

Lemma selects_intro {A : Type} (group : list A) (logic_type : Z)
  (g g' : rng) (i : nat) :
  selected_idx (length group) logic_type g = Ok (Z.of_nat i, g') ->
  (i < length group)%nat ->
  selects group logic_type g i g'.
Proof.
  intros E L. split; [ exact E | ].
  destruct (nth_error group i) as [x | ] eqn:N.
  - exists x. split; [ reflexivity | ].
    unfold select_note_from_group. rewrite E. cbn [bind].
    rewrite (py_getitem_nat _ _ N). reflexivity.
  - apply nth_error_None in N. lia.
Qed.

Lemma tie_spec (n : nat) :
  tie n = true <-> n = 2%nat \/ (n mod 4 = 0)%nat.
Proof.
  unfold tie. rewrite orb_true_iff, Z.eqb_eq, Nat.eqb_eq.
  change 4%Z with (Z.of_nat 4). rewrite <- Nat2Z.inj_mod.
  change 0%Z with (Z.of_nat 0). rewrite Nat2Z.inj_iff. tauto.
Qed.

Lemma half_of_nat (n : nat) : (Z.of_nat n / 2)%Z = Z.of_nat (n / 2).
Proof. rewrite Nat2Z.inj_div. reflexivity. Qed.

Lemma half_pred_of_nat (n : nat) :
  (1 <= n)%nat -> ((Z.of_nat n - 1) / 2)%Z = Z.of_nat ((n - 1) / 2).
Proof.
  intros L. rewrite Nat2Z.inj_div, Nat2Z.inj_sub by lia. reflexivity.
Qed.

Lemma half_bounds (n : nat) :
  (2 <= n)%nat ->
  (1 <= n / 2 /\ n / 2 < n /\ (n - 1) / 2 < n /\
   n = 2 * (n / 2) + n mod 2 /\ n - 1 = 2 * ((n - 1) / 2) + (n - 1) mod 2 /\
   n mod 2 < 2 /\ (n - 1) mod 2 < 2)%nat.
Proof.
  intros L.
  pose proof (Nat.div_mod_eq n 2). pose proof (Nat.div_mod_eq (n - 1) 2).
  pose proof (Nat.mod_upper_bound n 2 ltac:(lia)).
  pose proof (Nat.mod_upper_bound (n - 1) 2 ltac:(lia)). lia.
Qed.

(** C5.  For a group of at least two notes: policy 0 returns index 0 and
    policy 2 the last index.  Under policy 1, when the length is 2 or a
    multiple of 4 (the half-length is an even integer), the index is the
    half-length rounded down or its predecessor, as the generator decides,
    and both occur; otherwise the index is the truncation of
    [middle - 0.5], fixed by the length alone: the exact middle of an odd
    length, the lower of the two central indices of an even one. *)
Theorem selector_policies {A : Type} (group : list A) :
  (2 <= length group)%nat ->
  let n := length group in
  (forall g, selects group 0 g 0%nat g) /\
  (forall g, selects group 2 g (n - 1)%nat g) /\
  (n = 2%nat \/ (n mod 4 = 0)%nat ->
   (forall g, selects group 1 g (n / 2)%nat (rng_next g) \/
              selects group 1 g (n / 2 - 1)%nat (rng_next g)) /\
   (exists g, selects group 1 g (n / 2)%nat (rng_next g)) /\
   (exists g, selects group 1 g (n / 2 - 1)%nat (rng_next g))) /\
  (~ (n = 2%nat \/ (n mod 4 = 0)%nat) ->
   (forall g, selects group 1 g ((n - 1) / 2)%nat g) /\
   (Nat.odd n = true ->
    (2 * ((n - 1) / 2) + 1 = n)%nat /\
    inject_Z (Z.of_nat ((n - 1) / 2))
    == inject_Z (Z.of_nat n) / 2 - (1 # 2)) /\
   (Nat.even n = true -> ((n - 1) / 2 = n / 2 - 1)%nat)).
Proof.
  intros L n. fold n in L.
  destruct (half_bounds L) as (B1 & B2 & B3 & D & D' & M & M').
  assert (Mid : forall g,
             selected_idx n 1 g =
             if tie n then
               Ok (if Nat.even (g 0%nat) then Z.of_nat (n / 2)
                   else Z.of_nat (n / 2 - 1), rng_next g)
             else Ok (Z.of_nat ((n - 1) / 2), g)).
  { intros g. rewrite selected_idx_middle by exact L.
    rewrite half_of_nat, half_pred_of_nat by lia.
    replace (Z.of_nat (n / 2) - 1)%Z with (Z.of_nat (n / 2 - 1)) by lia.
    reflexivity. }
  split; [ | split; [ | split ] ].
  - intros g. apply selects_intro; [ reflexivity | lia ].
  - intros g. apply selects_intro; [ | lia ].
    rewrite selected_idx_highest. f_equal. f_equal. fold n. lia.
  - intros T. apply tie_spec in T. split; [ | split ].
    + intros g. specialize (Mid g). rewrite T in Mid.
      destruct (Nat.even (g 0%nat)).
      * left. apply selects_intro; [ exact Mid | fold n; lia ].
      * right. apply selects_intro; [ exact Mid | fold n; lia ].
    + exists g0. specialize (Mid g0). rewrite T in Mid.
      apply selects_intro; [ exact Mid | fold n; lia ].
    + exists g1. specialize (Mid g1). rewrite T in Mid.
      apply selects_intro; [ exact Mid | fold n; lia ].
  - intros T. rewrite <- tie_spec in T. apply not_true_is_false in T.
    split; [ | split ].
    + intros g. specialize (Mid g). rewrite T in Mid.
      apply selects_intro; [ exact Mid | fold n; lia ].
    + intros O. apply Nat.odd_spec in O. destruct O as [k O].
      assert (K : ((n - 1) / 2 = k)%nat).
      { replace (n - 1)%nat with (k * 2)%nat by lia.
        apply Nat.div_mul. lia. }
      split; [ lia | ]. rewrite K.
      replace (Z.of_nat n) with (2 * Z.of_nat k + 1)%Z by lia.
      generalize (Z.of_nat k). intros z. q2z.
    + intros E. apply Nat.even_spec in E. destruct E as [k E].
      assert (K : (n / 2 = k)%nat).
      { rewrite E, Nat.mul_comm. apply Nat.div_mul. lia. }
      rewrite K.
      assert (K' : ((n - 1) / 2 = k - 1)%nat).
      { replace (n - 1)%nat with (1 + (k - 1) * 2)%nat by lia.
        rewrite Nat.div_add by lia. reflexivity. }
      exact K'.
Qed.

Lemma selector_policies_witness :
  (2 <= length [60; 64; 67]%Z)%nat /\
  selects [60; 64; 67]%Z 1 g0 1%nat g0.
Proof.
  assert (L : (2 <= length [60; 64; 67]%Z)%nat) by (simpl; lia).
  split; [ exact L | ].
  refine (proj1 (proj2 (proj2 (proj2 (selector_policies [60; 64; 67]%Z L))) _)
            g0).
  simpl. intros [E | E]; discriminate.
Defined.

(** ** C10: the index stays inside the group *)

(** C10.  For a group of at least two notes and a policy in {0, 1, 2}, the
    three indices policy 1 may compute lie in [[0, length - 1]], the index
    the selector computes lies there too, and the selector returns the
    element of the group at that index: indexing does not fail. *)
Theorem selector_index_in_range {A : Type} (group : list A)
  (logic_type : Z) (g : rng) :
  (2 <= length group)%nat -> valid_logic_type logic_type ->
  let n := Z.of_nat (length group) in
  let middle := inject_Z n / 2 in
  (0 <= py_int middle < n)%Z /\
  (0 <= py_int (middle - 1) < n)%Z /\
  (0 <= py_int (middle - (1 # 2)) < n)%Z /\
  exists i g' x,
    selected_idx (length group) logic_type g = Ok (i, g') /\
    (0 <= i < n)%Z /\
    nth_error group (Z.to_nat i) = Some x /\
    In x group /\
    select_note_from_group group logic_type g = Ok (x, g').
Proof.
  intros L V n middle. subst middle.
  rewrite py_int_middle, py_int_middle_minus_1, py_int_middle_minus_half
    by lia.
  pose proof (Z.div_mod n 2 ltac:(lia)) as D.
  pose proof (Z.mod_pos_bound n 2 ltac:(lia)) as B.
  pose proof (Z.div_mod (n - 1) 2 ltac:(lia)) as D'.
  pose proof (Z.mod_pos_bound (n - 1) 2 ltac:(lia)) as B'.
  split; [ lia | split; [ lia | split; [ lia | ] ] ].
  destruct (selected_idx_in_range g L V) as (i & g' & E & R).
  destruct (py_getitem_in_range group R) as (x & Ex & N).
  exists i, g', x. split; [ exact E | ]. split; [ exact R | ].
  split; [ exact N | ]. split; [ eapply nth_error_In; exact N | ].
  unfold select_note_from_group. rewrite E. cbn [bind]. rewrite Ex.
  reflexivity.
Qed.

Lemma selector_index_in_range_witness :
  (2 <= length [60; 64; 67; 72]%Z)%nat /\ valid_logic_type 1 /\
  exists i g' x,
    selected_idx (length [60; 64; 67; 72]%Z) 1 g1 = Ok (i, g') /\
    (0 <= i < Z.of_nat (length [60; 64; 67; 72]%Z))%Z /\
    nth_error [60; 64; 67; 72]%Z (Z.to_nat i) = Some x /\
    In x [60; 64; 67; 72]%Z /\
    select_note_from_group [60; 64; 67; 72]%Z 1 g1 = Ok (x, g').
Proof.
  assert (L : (2 <= length [60; 64; 67; 72]%Z)%nat) by (simpl; lia).
  assert (V : valid_logic_type 1) by (unfold valid_logic_type; lia).
  split; [ exact L | ]. split; [ exact V | ].
  exact (proj2 (proj2 (proj2
           (selector_index_in_range [60; 64; 67; 72]%Z g1 L V)))).
Defined.

(** ** C6: an invalid policy *)

(** C6, as stated, fails: with policy 5 and a single note the run returns
    that note instead of raising. *)
Lemma invalid_policy_not_always_rejected :
  ~ (forall midi_data range_min range_max time_multiplier logic_type
            add_legato g,
       ~ valid_logic_type logic_type ->
       midi_postprocessing midi_data range_min range_max time_multiplier
         logic_type add_legato g = Raise AssertionError).
Proof.
  intros H.
  assert (V : ~ valid_logic_type 5) by (unfold valid_logic_type; lia).
  specialize (H [[pn 0 1 60]] 48%Z 72%Z 1 5%Z true g0 V).
  vm_compute in H. discriminate H.
Qed.

(** C6, amended.  The selector raises the assertion error for every policy
    outside {0, 1, 2}; the run raises it exactly when some start-time group
    holds more than one note, and otherwise returns a sequence. *)
Theorem invalid_policy (logic_type : Z) :
  ~ valid_logic_type logic_type ->
  (forall (A : Type) (group : list A) g,
     select_note_from_group group logic_type g = Raise AssertionError) /\
  (forall midi_data range_min range_max time_multiplier add_legato g,
     if polyphonic (time_groups midi_data time_multiplier) then
       midi_postprocessing midi_data range_min range_max time_multiplier
         logic_type add_legato g = Raise AssertionError
     else
       exists out n,
         midi_postprocessing midi_data range_min range_max time_multiplier
           logic_type add_legato g = Ok (out, n)).
Proof.
  intros V. split.
  - intros A group g. apply select_note_from_group_invalid. exact V.
  - intros md mn mx tm leg g.
    destruct (polyphonic (time_groups md tm)) eqn:P.
    + unfold midi_postprocessing.
      rewrite (@select_notes_invalid md mn mx tm logic_type leg g V P).
      reflexivity.
    + destruct (@select_notes_total md mn mx tm logic_type leg g
                  (or_intror P))
        as (st & E).
      unfold midi_postprocessing. rewrite E. cbn [bind].
      eexists _, _. reflexivity.
Qed.

Lemma invalid_policy_witness :
  ~ valid_logic_type 5 /\
  midi_postprocessing [[pn 0 1 60; pn 2 3 62; pn 2 3 65]] 48 72 1 5 true g0
  = Raise AssertionError.
Proof.
  assert (V : ~ valid_logic_type 5) by (unfold valid_logic_type; lia).
  split; [ exact V | ].
  exact (proj2 (@invalid_policy 5%Z V)
           [[pn 0 1 60; pn 2 3 62; pn 2 3 65]] 48%Z 72%Z 1 true g0).
Defined.

(** ** C7: time scaling *)





(** ** C8: the returned count *)



(** ** C9: frame conditions *)

Lemma iteration_frame (mn mx : Z) (leg : bool) (st st' : state)
  (group : list loc) :
  iteration mn mx leg st group st' ->
  (forall l, start (st_heap st' l) = start (st_heap st l)) /\
  (forall l, end_ (st_heap st' l) = end_ (st_heap st l) \/
             (leg = true /\
              exists sel note,
                selected_notes st = sel ++ [l] /\
                selected_notes st' = selected_notes st ++ [note] /\
                end_ (st_heap st' l) = start (st_heap st note))) /\
  (forall l, pitch (st_heap st' l) = pitch (st_heap st l) \/ In l group).
Proof.
  intros [note g M E | note prev sel g M E h Gate
          | note prev sel g M E h Gate]; cbn [st_heap selected_notes].
  - split; [ | split ]; intros l.
    + apply fit_start.
    + left. apply fit_end.
    + destruct (Nat.eq_dec l note) as [-> | N]; [ right; exact M | left ].
      rewrite fit_other by exact N. reflexivity.
  - split; [ | split ]; intros l.
    + destruct leg; [ rewrite set_end_start | ]; apply fit_start.
    + destruct leg; [ | left; apply fit_end ].
      destruct (Nat.eq_dec l prev) as [-> | N].
      * right. split; [ reflexivity | ]. exists sel, note.
        rewrite E. split; [ reflexivity | ]. split; [ reflexivity | ].
        rewrite set_end_same. apply fit_start.
      * left. rewrite set_end_other by exact N. apply fit_end.
    + destruct (Nat.eq_dec l note) as [-> | N]; [ right; exact M | left ].
      destruct leg; [ rewrite set_end_pitch | ];
        unfold h; rewrite fit_other by exact N; reflexivity.
  - split; [ | split ]; intros l.
    + apply fit_start.
    + left. apply fit_end.
    + destruct (Nat.eq_dec l note) as [-> | N]; [ right; exact M | left ].
      unfold h. rewrite fit_other by exact N. reflexivity.
Qed.

(** C9.  The fitter leaves the start and the end of every note, and every
    note but its argument, as they were.  One iteration of the loop leaves
    every start as it was, changes an end only by the legato rewrite (the
    end of the last accepted note becomes the start of the appended
    candidate) and a pitch only inside the visited group.  After the run
    every start on the heap is the one the scaling step wrote. *)
Theorem frame_conditions :
  (forall h note range_min range_max l,
     start (fit_to_pitch_range h note range_min range_max l) = start (h l) /\
     end_ (fit_to_pitch_range h note range_min range_max l) = end_ (h l) /\
     (l <> note -> fit_to_pitch_range h note range_min range_max l = h l)) /\
  (forall range_min range_max logic_type add_legato st group st',
     loop_body range_min range_max logic_type add_legato st group = Ok st' ->
     (forall l, start (st_heap st' l) = start (st_heap st l)) /\
     (forall l, end_ (st_heap st' l) = end_ (st_heap st l) \/
                (add_legato = true /\
                 exists sel note,
                   selected_notes st = sel ++ [l] /\
                   selected_notes st' = selected_notes st ++ [note] /\
                   end_ (st_heap st' l) = start (st_heap st note))) /\
     (forall l, pitch (st_heap st' l) = pitch (st_heap st l) \/
                In l group)) /\
  (forall midi_data range_min range_max time_multiplier logic_type
          add_legato g st,
     select_notes midi_data range_min range_max time_multiplier logic_type
       add_legato g = Ok st ->
     forall l, start (st_heap st l)
               = start (alloc (read_notes midi_data time_multiplier) l)).
Proof.
  split; [ | split ].
  - intros h note mn mx l. split; [ apply fit_start | ].
    split; [ apply fit_end | apply fit_other ].
  - intros mn mx lt leg st group st' B.
    apply loop_body_iteration in B.
    exact (@iteration_frame mn mx leg st st' group B).
  - intros md mn mx tm lt leg g st R l.
    apply select_notes_invariant in R. destruct R as (I & _).
    exact (inv_start I l).
Qed.

Lemma frame_conditions_witness :
  loop_body 48 72 1 true (mkState heap_gap [0%nat] g0) [1%nat]
  = Ok (mkState (set_end heap_gap 0%nat (start (heap_gap 1%nat)))
                [0%nat; 1%nat] g0) /\
  forall l, start (set_end heap_gap 0%nat (start (heap_gap 1%nat)) l)
            = start (heap_gap l).
Proof.
  assert (E : loop_body 48 72 1 true (mkState heap_gap [0%nat] g0) [1%nat]
              = Ok (mkState (set_end heap_gap 0%nat (start (heap_gap 1%nat)))
                            [0%nat; 1%nat] g0)) by reflexivity.
  split; [ exact E | ].
  exact (proj1 (proj1 (proj2 frame_conditions) 48%Z 72%Z 1%Z true _ _ _ E)).
Defined.

(** * Runs of the model *)

(** Three simultaneous notes, lowest policy: the lowest pitch is kept. *)
Example run_lowest_of_chord :
  midi_postprocessing [[pn 0 1 60; pn 0 1 64; pn 0 1 67]] 48 72 1 0 true g0
  = Ok ([mkPrettyNote 127 60 (0 * 1) (1 * 1)], 1%nat).
Proof. reflexivity. Qed.

(** The middle policy on a chord of four notes depends on the draw. *)
Example run_middle_of_four :
  midi_postprocessing
    [[pn 0 1 60; pn 0 1 64; pn 0 1 67; pn 0 1 70]] 48 72 1 1 true g0
  = Ok ([mkPrettyNote 127 67 (0 * 1) (1 * 1)], 1%nat) /\
  midi_postprocessing
    [[pn 0 1 60; pn 0 1 64; pn 0 1 67; pn 0 1 70]] 48 72 1 1 true g1
  = Ok ([mkPrettyNote 127 64 (0 * 1) (1 * 1)], 1%nat).
Proof. split; reflexivity. Qed.

(** Two touching notes with legato: the ends are as they were. *)
Example run_touching_notes :
  midi_postprocessing [[pn 0 1 60; pn 1 2 62]] 48 72 1 1 true g0
  = Ok ([mkPrettyNote 127 60 (0 * 1) (1 * 1);
         mkPrettyNote 127 62 (1 * 1) (2 * 1)], 2%nat).
Proof. reflexivity. Qed.

(** Two overlapping notes: the second is dropped. *)
Example run_overlapping_notes :
  midi_postprocessing [[pn 0 2 60; pn 1 3 62]] 48 72 1 1 true g0
  = Ok ([mkPrettyNote 127 60 (0 * 1) (2 * 1)], 1%nat).
Proof. reflexivity. Qed.

(** Notes of two instruments, unsorted, one of them out of range and
    overlapping its predecessor. *)
Example run_two_instruments :
  midi_postprocessing
    [[pn 2 3 67; pn 0 1 60]; [pn 2 3 62; pn 2 3 65; pn (1 # 2) 4 100]]
    48 72 1 1 false g0
  = Ok ([mkPrettyNote 127 60 (0 * 1) (1 * 1);
         mkPrettyNote 127 65 (2 * 1) (3 * 1)], 2%nat).
Proof. reflexivity. Qed.

(** The loop relies on the groups sharing no note: visiting the same
    zero-length note twice, legato later stretches both entries of the
    result and the sequence overlaps itself. *)
Example shared_note_overlaps :
  exists st,
    for_each 0 127 0 true [[0%nat]; [0%nat]; [1%nat]]
      (mkState (alloc [mkNote 0 0 60; mkNote 5 6 62]) [] g0) = Ok st /\
    out_notes st = [mkPrettyNote 127 60 0 5; mkPrettyNote 127 60 0 5;
                    mkPrettyNote 127 62 5 6] /\
    ~ adjacent (fun a b => pm_end a <= pm_start b) (out_notes st).
Proof.
  eexists. split; [ reflexivity | ]. split; [ reflexivity | ].
  intros H.
  specialize (H 0%nat (mkPrettyNote 127 60 0 5) (mkPrettyNote 127 60 0 5)
                eq_refl eq_refl).
  cbn [pm_end pm_start] in H. vm_compute in H. apply H. reflexivity.
Qed.

(** * Further properties of the script *)

(** ** The range fitter *)

Lemma fit_in_range_id (h : heap) (note : loc) (mn mx : Z) :
  in_range mn mx (pitch (h note)) -> fit_to_pitch_range h note mn mx = h.
Proof.
  unfold in_range, fit_to_pitch_range. intros R. cbv zeta.
  destruct (Z.gtb_spec (pitch (h note)) mx) as [N | _]; [ lia | ].
  destruct (Z.ltb_spec (pitch (h note)) mn) as [N | _]; [ lia | ].
  reflexivity.
Qed.

(** X1.  When the range spans at least eleven semitones, fitting a note a
    second time changes nothing; on a narrower range it may: in [[60, 62]]
    pitch 70 becomes 58 and a second call sends it back to 70. *)
Theorem fit_to_pitch_range_idempotent :
  (forall h note range_min range_max,
     (range_max - range_min >= 11)%Z ->
     fit_to_pitch_range
       (fit_to_pitch_range h note range_min range_max)
       note range_min range_max
     = fit_to_pitch_range h note range_min range_max) /\
  pitch (fit_to_pitch_range
           (fit_to_pitch_range (alloc [mkNote 0 1 70]) 0%nat 60 62)
           0%nat 60 62 0%nat) = 70%Z.
Proof.
  split; [ | reflexivity ].
  intros h note mn mx S. apply fit_in_range_id.
  apply fit_pitch_in_range. exact S.
Qed.

Lemma fit_to_pitch_range_idempotent_witness :
  (72 - 48 >= 11)%Z /\
  fit_to_pitch_range
    (fit_to_pitch_range (alloc [mkNote 0 1 90]) 0%nat 48 72) 0%nat 48 72
  = fit_to_pitch_range (alloc [mkNote 0 1 90]) 0%nat 48 72.
Proof.
  assert (S : (72 - 48 >= 11)%Z) by lia.
  split; [ exact S | ].
  exact (proj1 fit_to_pitch_range_idempotent
           (alloc [mkNote 0 1 90]) 0%nat 48%Z 72%Z S).
Defined.

(** X2.  The fitter moves a pitch by whole octaves only, and by the
    smallest number that clears the bound it tests: from above
    [range_max] the result lies in [(range_max - 12, range_max]]; from
    below [range_min] (and not above [range_max]) it lies in
    [[range_min, range_min + 12)]; this whatever the width of the range. *)
Theorem fit_to_pitch_range_nearest_octave (h : heap) (note : loc)
  (range_min range_max : Z) :
  let p := pitch (h note) in
  let p' := pitch (fit_to_pitch_range h note range_min range_max note) in
  ((p' - p) mod 12 = 0)%Z /\
  ((p > range_max)%Z -> (range_max - 12 < p' <= range_max)%Z) /\
  ((p <= range_max)%Z -> (p < range_min)%Z ->
   (range_min <= p' < range_min + 12)%Z).
Proof.
  intros p p'. subst p'. rewrite fit_pitch. fold p. cbv zeta.
  pose proof (Z.div_mod (p - range_max + 11) 12 ltac:(lia)) as D1.
  pose proof (Z.mod_pos_bound (p - range_max + 11) 12 ltac:(lia)) as B1.
  pose proof (Z.div_mod (range_min - p + 11) 12 ltac:(lia)) as D2.
  pose proof (Z.mod_pos_bound (range_min - p + 11) 12 ltac:(lia)) as B2.
  destruct (Z.gtb_spec p range_max) as [G | G].
  - split; [ | split; [ intros _ | intros; lia ] ].
    + replace (p - 12 * ((p - range_max + 11) / 12) - p)%Z
        with ((- ((p - range_max + 11) / 12)) * 12)%Z by lia.
      apply Z.mod_mul. lia.
    + lia.
  - destruct (Z.ltb_spec p range_min) as [L | L].
    + split; [ | split; [ intros; lia | intros _ _ ] ].
      * replace (p + 12 * ((range_min - p + 11) / 12) - p)%Z
          with (((range_min - p + 11) / 12) * 12)%Z by lia.
        apply Z.mod_mul. lia.
      * lia.
    + split; [ | split; intros; lia ].
      rewrite Z.sub_diag. reflexivity.
Qed.

Lemma fit_to_pitch_range_nearest_octave_witness :
  (100 > 72)%Z /\
  (72 - 12 <
   pitch (fit_to_pitch_range (alloc [mkNote 0 1 100]) 0%nat 70 72 0%nat)
   <= 72)%Z.
Proof.
  assert (G : (100 > 72)%Z) by lia.
  split; [ exact G | ].
  exact (proj1 (proj2 (fit_to_pitch_range_nearest_octave
                         (alloc [mkNote 0 1 100]) 0%nat 70 72)) G).
Defined.

Lemma fit_pitch_fitted (h : heap) (note : loc) (mn mx : Z) :
  pitch (fit_to_pitch_range h note mn mx note)
  = fitted_pitch mn mx (pitch (h note)).
Proof. unfold fitted_pitch. rewrite !fit_pitch. reflexivity. Qed.

(** ** Runs that do not depend on the policy or on the generator *)

Lemma loop_body_split (mn mx lt : Z) (leg : bool) (st : state)
  (group : list loc) :
  loop_body mn mx lt leg st group =
  ('(note, g) <- candidate group lt (st_rng st) ;; gate mn mx leg st note g).
Proof. reflexivity. Qed.

Lemma same_notes_gate (mn mx : Z) (leg : bool) (st st' : state)
  (note : loc) (g g' : rng) :
  st_heap st = st_heap st' -> selected_notes st = selected_notes st' ->
  same_notes (gate mn mx leg st note g) (gate mn mx leg st' note g').
Proof.
  intros Eh Es. unfold gate. rewrite <- Eh, <- Es. cbv zeta.
  destruct (0 <? length (selected_notes st))%nat.
  - destruct (py_getitem (selected_notes st) (-1)) as [prev | e];
      cbn [bind]; [ | reflexivity ].
    destruct (Qle_bool _ _); split; reflexivity.
  - split; reflexivity.
Qed.

Lemma same_notes_for_each (mn mx lt lt' : Z) (leg : bool)
  (groups : list (list loc)) (st st' : state) :
  Forall (fixed_choice lt lt') groups ->
  st_heap st = st_heap st' -> selected_notes st = selected_notes st' ->
  same_notes (for_each mn mx lt leg groups st)
             (for_each mn mx lt' leg groups st').
Proof.
  intros F. revert st st'.
  induction F as [ | group rest (note & C) _ IH]; intros st st' Eh Es.
  - split; assumption.
  - cbn [for_each]. rewrite !loop_body_split.
    destruct (C (st_rng st) (st_rng st')) as [-> ->]. cbn [bind].
    pose proof (same_notes_gate mn mx leg st st' note (st_rng st)
                  (st_rng st') Eh Es) as G.
    destruct (gate mn mx leg st note (st_rng st)) as [s1 | e1],
             (gate mn mx leg st' note (st_rng st')) as [s1' | e1'];
      cbn [bind]; try contradiction.
    + destruct G as [Eh1 Es1]. apply IH; assumption.
    + exact G.
Qed.

Lemma same_notes_output (r r' : result state) :
  same_notes r r' ->
  (st <- r ;; Ok (out_notes st, length (selected_notes st))) =
  (st <- r' ;; Ok (out_notes st, length (selected_notes st))).
Proof.
  destruct r as [st | e], r' as [st' | e']; cbn [same_notes bind];
    try contradiction.
  - intros [Eh Es]. unfold out_notes. rewrite Eh, Es. reflexivity.
  - intros ->. reflexivity.
Qed.

Lemma fixed_choice_single (lt lt' : Z) (group : list loc) :
  length group = 1%nat -> fixed_choice lt lt' group.
Proof.
  intros L. destruct group as [ | x [ | y t]]; try discriminate.
  exists x. intros g g'. split; reflexivity.
Qed.

Lemma fixed_choice_lowest (group : list loc) :
  (1 <= length group)%nat -> fixed_choice 0 0 group.
Proof.
  intros L. destruct group as [ | x t]; [ simpl in L; lia | ].
  exists x. intros g g'. unfold candidate.
  destruct (1 <? length (x :: t))%nat; split; reflexivity.
Qed.

Lemma fixed_choice_highest (group : list loc) :
  (1 <= length group)%nat -> fixed_choice 2 2 group.
Proof.
  intros L.
  destruct (nonempty_snoc group ltac:(lia)) as (init & x & ->).
  assert (G : py_getitem (init ++ [x])
                (Z.of_nat (length (init ++ [x])) - 1) = Ok x).
  { replace (Z.of_nat (length (init ++ [x])) - 1)%Z
      with (Z.of_nat (length init))
      by (rewrite length_app; simpl; lia).
    apply py_getitem_nat. rewrite nth_error_app2, Nat.sub_diag by lia.
    reflexivity. }
  exists x. intros g g'. unfold candidate.
  destruct (Nat.ltb_spec 1 (length (init ++ [x]))) as [P | P].
  - unfold select_note_from_group. rewrite !selected_idx_highest.
    cbn [bind]. rewrite G. split; reflexivity.
  - destruct init as [ | y t].
    + split; reflexivity.
    + rewrite length_app in P. simpl in P. lia.
Qed.

Lemma monophonic_fixed_choice (lt lt' : Z) (groups : list (list loc)) :
  (forall group, In group groups -> (1 <= length group)%nat) ->
  polyphonic groups = false ->
  Forall (fixed_choice lt lt') groups.
Proof.
  intros NE P. apply Forall_forall. intros group I.
  apply fixed_choice_single.
  unfold polyphonic in P.
  assert (B : (1 <? length group)%nat = false).
  { destruct (1 <? length group)%nat eqn:E; [ | reflexivity ].
    assert (T : existsb (fun group => (1 <? length group)%nat) groups
                = true).
    { apply existsb_exists. exists group. split; assumption. }
    congruence. }
  apply Nat.ltb_ge in B. specialize (NE group I). lia.
Qed.

(** X3.  When no two input events share a scaled start time, the result
    depends neither on the policy (valid or not) nor on the random
    source. *)
Theorem monophonic_input_ignores_policy midi_data range_min range_max
  time_multiplier logic_type logic_type' add_legato g g' :
  polyphonic (time_groups midi_data time_multiplier) = false ->
  midi_postprocessing midi_data range_min range_max time_multiplier
    logic_type add_legato g
  = midi_postprocessing midi_data range_min range_max time_multiplier
      logic_type' add_legato g'.
Proof.
  intros P. unfold midi_postprocessing. apply same_notes_output.
  rewrite !select_notes_unfold.
  apply same_notes_for_each; [ | reflexivity | reflexivity ].
  apply monophonic_fixed_choice; [ | exact P ].
  apply time_groups_nonempty.
Qed.

Lemma monophonic_input_ignores_policy_witness :
  polyphonic (time_groups two_notes_gap 1) = false /\
  midi_postprocessing two_notes_gap 48 72 1 0 true g0
  = midi_postprocessing two_notes_gap 48 72 1 9 true g1.
Proof.
  assert (P : polyphonic (time_groups two_notes_gap 1) = false)
    by reflexivity.
  split; [ exact P | ].
  exact (monophonic_input_ignores_policy two_notes_gap 48 72 1 0 9 true
           g0 g1 P).
Defined.

(** X4.  Under the lowest and the highest policy the result does not
    depend on the random source. *)
Theorem extreme_policies_deterministic midi_data range_min range_max
  time_multiplier logic_type add_legato g g' :
  logic_type = 0%Z \/ logic_type = 2%Z ->
  midi_postprocessing midi_data range_min range_max time_multiplier
    logic_type add_legato g
  = midi_postprocessing midi_data range_min range_max time_multiplier
      logic_type add_legato g'.
Proof.
  intros L. unfold midi_postprocessing. apply same_notes_output.
  rewrite !select_notes_unfold.
  apply same_notes_for_each; [ | reflexivity | reflexivity ].
  apply Forall_forall. intros group I.
  apply time_groups_nonempty in I.
  destruct L as [-> | ->];
    [ apply fixed_choice_lowest | apply fixed_choice_highest ]; exact I.
Qed.

Lemma extreme_policies_deterministic_witness :
  (2 = 0 \/ 2 = 2)%Z /\
  midi_postprocessing [[pn 0 1 60; pn 0 1 64; pn 0 1 67; pn 0 1 70]]
    48 72 1 2 true g0
  = midi_postprocessing [[pn 0 1 60; pn 0 1 64; pn 0 1 67; pn 0 1 70]]
      48 72 1 2 true g1.
Proof.
  assert (L : (2 = 0 \/ 2 = 2)%Z) by (right; reflexivity).
  split; [ exact L | ].
  exact (extreme_policies_deterministic
           [[pn 0 1 60; pn 0 1 64; pn 0 1 67; pn 0 1 70]] 48 72 1 true
           g0 g1 L).
Defined.

(** ** The sort orders *)

Section SortedOrder.
Variables (A K : Type) (key : A -> K) (ltb : K -> K -> bool).
Hypothesis ltb_asym : forall a b, ltb a b = true -> ltb b a = false.
Hypothesis ltb_trans :
  forall a b c, ltb b a = false -> ltb c b = false -> ltb c a = false.

Let R (x y : A) : Prop := ltb (key y) (key x) = false.

Lemma insert_sorted_sorted (x : A) (l : list A) :
  StronglySorted R l -> StronglySorted R (insert_sorted key ltb x l).
Proof.
  induction l as [ | y t IH]; intros S; cbn [insert_sorted].
  - constructor; constructor.
  - apply StronglySorted_inv in S. destruct S as [St Fy].
    destruct (ltb (key y) (key x)) eqn:E.
    + constructor; [ apply IH; exact St | ].
      apply Forall_forall. intros z Iz.
      apply (Permutation_in _ (insert_sorted_perm key ltb x t)) in Iz.
      destruct Iz as [<- | Iz].
      * unfold R. apply ltb_asym. exact E.
      * rewrite Forall_forall in Fy. apply Fy. exact Iz.
    + constructor; [ constructor; assumption | ].
      constructor; [ exact E | ].
      apply Forall_forall. intros z Iz. rewrite Forall_forall in Fy.
      unfold R. eapply ltb_trans; [ exact E | ]. apply Fy. exact Iz.
Qed.

Lemma sorted_sorted (l : list A) : StronglySorted R (sorted key ltb l).
Proof.
  induction l as [ | x t IH]; cbn [sorted].
  - constructor.
  - apply insert_sorted_sorted. exact IH.
Qed.
End SortedOrder.

Lemma StronglySorted_filter {A : Type} (R : A -> A -> Prop)
  (f : A -> bool) (l : list A) :
  StronglySorted R l -> StronglySorted R (filter f l).
Proof.
  induction 1 as [ | x t St IH Fx]; cbn [filter]; [ constructor | ].
  destruct (f x); [ | exact IH ].
  constructor; [ exact IH | ].
  apply Forall_forall. intros z Iz. apply filter_In in Iz.
  rewrite Forall_forall in Fx. apply Fx. tauto.
Qed.

Lemma StronglySorted_map_rel {A B : Type} (R : A -> A -> Prop)
  (R' : B -> B -> Prop) (f : A -> B) (l : list A) :
  (forall a b, R a b -> R' (f a) (f b)) ->
  StronglySorted R l -> StronglySorted R' (map f l).
Proof.
  intros I. induction 1 as [ | x t St IH Fx]; cbn [map]; [ constructor | ].
  constructor; [ exact IH | ].
  apply Forall_forall. intros z Iz. apply in_map_iff in Iz.
  destruct Iz as (y & <- & Iy). apply I.
  rewrite Forall_forall in Fx. apply Fx. exact Iy.
Qed.

Lemma StronglySorted_snoc {A : Type} (R : A -> A -> Prop) (l : list A)
  (x : A) :
  StronglySorted R l -> (forall a, In a l -> R a x) ->
  StronglySorted R (l ++ [x]).
Proof.
  induction 1 as [ | y t St IH Fy]; intros H; cbn [app].
  - constructor; constructor.
  - constructor.
    + apply IH. intros a Ia. apply H. right. exact Ia.
    + apply Forall_forall. intros z Iz. apply in_app_or in Iz.
      destruct Iz as [Iz | [<- | []]].
      * rewrite Forall_forall in Fy. apply Fy. exact Iz.
      * apply H. left. reflexivity.
Qed.

Lemma StronglySorted_last {A : Type} (R : A -> A -> Prop) (l : list A)
  (x : A) :
  StronglySorted R (l ++ [x]) -> forall a, In a l -> R a x.
Proof.
  induction l as [ | y t IH]; intros S a Ia; [ contradiction | ].
  cbn [app] in S. apply StronglySorted_inv in S. destruct S as [St Fy].
  destruct Ia as [<- | Ia].
  - rewrite Forall_forall in Fy. apply Fy. apply in_or_app. right.
    left. reflexivity.
  - apply IH; assumption.
Qed.

Lemma Qltb_lt (a b : Q) : Qltb a b = true <-> a < b.
Proof.
  unfold Qltb. rewrite negb_true_iff.
  destruct (Qle_bool b a) eqn:E.
  - apply Qle_bool_iff in E. split; [ discriminate | lra ].
  - split; [ intros _ | reflexivity ].
    apply Qnot_le_lt. intros L. apply Qle_bool_iff in L. congruence.
Qed.

Lemma Qltb_ge (a b : Q) : Qltb a b = false <-> b <= a.
Proof.
  unfold Qltb. rewrite negb_false_iff. apply Qle_bool_iff.
Qed.

Lemma key_ltb_spec (k1 k2 : Q * Z) :
  key_ltb k1 k2 = true <->
  fst k1 < fst k2 \/ (fst k1 == fst k2 /\ (snd k1 < snd k2)%Z).
Proof.
  unfold key_ltb.
  destruct (Qeq_bool (fst k1) (fst k2)) eqn:E; cbn [negb].
  - apply Qeq_bool_iff in E.
    destruct (Z.eqb_spec (snd k1) (snd k2)) as [Z | Z]; cbn [negb].
    + split; [ discriminate | ]. intros [L | [_ L]]; [ lra | lia ].
    + rewrite Z.ltb_lt. split; [ intros L; right; tauto | ].
      intros [L | [_ L]]; [ lra | exact L ].
  - apply Qeq_bool_neq in E. fold (Qltb (fst k1) (fst k2)).
    rewrite Qltb_lt. split; [ intros L; left; exact L | ].
    intros [L | [L _]]; [ exact L | contradiction ].
Qed.

Lemma key_le_spec (k1 k2 : Q * Z) :
  key_le k1 k2 <->
  fst k1 < fst k2 \/ (fst k1 == fst k2 /\ (snd k1 <= snd k2)%Z).
Proof.
  unfold key_le. split.
  - intros N.
    destruct (Qlt_le_dec (fst k1) (fst k2)) as [L | L];
      [ left; exact L | right ].
    destruct (Qlt_le_dec (fst k2) (fst k1)) as [L' | L'].
    + assert (T : key_ltb k2 k1 = true)
        by (apply key_ltb_spec; left; exact L').
      congruence.
    + split; [ lra | ].
      destruct (Z_lt_le_dec (snd k2) (snd k1)) as [Z | Z]; [ | exact Z ].
      assert (T : key_ltb k2 k1 = true).
      { apply key_ltb_spec. right. split; [ lra | exact Z ]. }
      congruence.
  - intros H. destruct (key_ltb k2 k1) eqn:E; [ | reflexivity ].
    apply key_ltb_spec in E.
    destruct H as [L | [L Z]], E as [L' | [L' Z']]; try lra; lia.
Qed.

Lemma key_ltb_asym (a b : Q * Z) :
  key_ltb a b = true -> key_ltb b a = false.
Proof.
  intros H. apply key_ltb_spec in H. fold (key_le a b).
  apply key_le_spec. destruct H as [L | [L Z]];
    [ left; exact L | right; split; [ exact L | lia ] ].
Qed.

Lemma key_le_trans (a b c : Q * Z) :
  key_ltb b a = false -> key_ltb c b = false -> key_ltb c a = false.
Proof.
  fold (key_le a b) (key_le b c) (key_le a c).
  rewrite !key_le_spec.
  intros [L | [L Z]] [L' | [L' Z']].
  - left; lra.
  - left; lra.
  - left; lra.
  - right. split; [ lra | lia ].
Qed.

Lemma Qltb_asym (a b : Q) : Qltb a b = true -> Qltb b a = false.
Proof. rewrite Qltb_lt, Qltb_ge. lra. Qed.

Lemma Qle_ltb_trans (a b c : Q) :
  Qltb b a = false -> Qltb c b = false -> Qltb c a = false.
Proof. rewrite !Qltb_ge. lra. Qed.

Lemma sort_midi_list_sorted (h : heap) (l : list loc) :
  StronglySorted (fun a b => key_le (sort_key h a) (sort_key h b))
                 (sort_midi_list h l).
Proof.
  apply (sorted_sorted (sort_key h) key_ltb key_ltb_asym key_le_trans).
Qed.

Lemma le_distinct_lt (l : list Q) :
  StronglySorted Qle l -> NoDupA Qeq l -> StronglySorted Qlt l.
Proof.
  induction 1 as [ | x t St IH Fx]; intros D; [ constructor | ].
  inversion D as [ | ? ? Nx Dt]; subst.
  constructor; [ apply IH; exact Dt | ].
  apply Forall_forall. intros z Iz. rewrite Forall_forall in Fx.
  specialize (Fx z Iz).
  destruct (Qeq_dec x z) as [E | E]; [ | lra ].
  exfalso. apply Nx. apply InA_alt. exists z. split; assumption.
Qed.

Lemma StronglySorted_impl {A : Type} (R R' : A -> A -> Prop) (l : list A) :
  (forall a b, R a b -> R' a b) ->
  StronglySorted R l -> StronglySorted R' l.
Proof.
  intros I. induction 1 as [ | x t St IH Fx]; constructor.
  - exact IH.
  - revert Fx. apply Forall_impl. intros z. apply I.
Qed.

Lemma start_values_ascending (h : heap) (midi_list : list loc) :
  StronglySorted Qlt (start_values h midi_list).
Proof.
  apply le_distinct_lt; [ | apply start_values_distinct ].
  unfold start_values.
  generalize (sorted_sorted (fun x : Q => x) Qltb Qltb_asym Qle_ltb_trans
                (py_set (map (fun x => start (h x)) midi_list))).
  apply StronglySorted_impl. intros a b. apply Qltb_ge.
Qed.

(** ** Groups *)

Lemma py_set_complete (l : list Q) (x : Q) :
  In x l -> exists v, In v (py_set l) /\ x == v.
Proof.
  revert x. induction l as [ | y t IH]; intros x I; [ contradiction | ].
  cbn [py_set]. destruct (existsb (Qeq_bool y) t) eqn:E.
  - destruct I as [<- | I]; [ | exact (IH x I) ].
    apply existsb_exists in E. destruct E as (z & Iz & Ez).
    apply Qeq_bool_iff in Ez. destruct (IH z Iz) as (v & Iv & Ev).
    exists v. split; [ exact Iv | ]. rewrite Ez. exact Ev.
  - destruct I as [<- | I].
    + exists y. split; [ left; reflexivity | reflexivity ].
    + destruct (IH x I) as (v & Iv & Ev). exists v.
      split; [ right; exact Iv | exact Ev ].
Qed.

Lemma group_common_start (h : heap) (midi_list group : list loc) :
  In group (group_by_start_time h midi_list) ->
  exists x, In x (start_values h midi_list) /\
            group = filter (fun y => Qeq_bool (start (h y)) x) midi_list /\
            (forall l, In l group -> start (h l) == x).
Proof.
  unfold group_by_start_time. intros I. apply in_map_iff in I.
  destruct I as (x & <- & Ix). exists x. split; [ exact Ix | ].
  split; [ reflexivity | ].
  intros l Il. apply filter_In in Il. apply Qeq_bool_iff. tauto.
Qed.

Lemma groups_cover (h : heap) (midi_list : list loc) (l : loc) :
  In l midi_list -> In l (concat (group_by_start_time h midi_list)).
Proof.
  intros I.
  assert (S : In (start (h l)) (map (fun x => start (h x)) midi_list)).
  { apply in_map_iff. exists l. split; [ reflexivity | exact I ]. }
  apply py_set_complete in S. destruct S as (v & Iv & Ev).
  apply in_concat.
  exists (filter (fun y => Qeq_bool (start (h y)) v) midi_list). split.
  - unfold group_by_start_time. apply in_map_iff. exists v.
    split; [ reflexivity | ]. unfold start_values.
    apply (Permutation_in _ (Permutation_sym (sorted_perm _ _ _))).
    exact Iv.
  - apply filter_In. split; [ exact I | ]. apply Qeq_bool_iff. exact Ev.
Qed.

Lemma groups_ascending (h : heap) (midi_list : list loc) :
  StronglySorted (before h) (group_by_start_time h midi_list).
Proof.
  unfold group_by_start_time.
  apply StronglySorted_map_rel with (R := Qlt);
    [ | apply start_values_ascending ].
  intros x y L. unfold before. intros a b Ia Ib.
  apply filter_In in Ia, Ib.
  destruct Ia as [_ Ea], Ib as [_ Eb].
  apply Qeq_bool_iff in Ea, Eb. lra.
Qed.

Lemma common_start_pitch_sorted (h : heap) (x : Q) (group : list loc) :
  StronglySorted (fun a b => key_le (sort_key h a) (sort_key h b)) group ->
  (forall l, In l group -> start (h l) == x) ->
  StronglySorted (fun a b => (pitch (h a) <= pitch (h b))%Z) group.
Proof.
  induction 1 as [ | a t St IH Fa]; intros C; constructor.
  - apply IH. intros l Il. apply C. right. exact Il.
  - apply Forall_forall. intros b Ib. rewrite Forall_forall in Fa.
    specialize (Fa b Ib). apply key_le_spec in Fa.
    unfold sort_key in Fa. cbn [fst snd] in Fa.
    pose proof (C a (or_introl eq_refl)) as Ca.
    pose proof (C b (or_intror Ib)) as Cb.
    destruct Fa as [L | [_ Z]]; [ lra | exact Z ].
Qed.

Lemma groups_pitch_sorted (h : heap) (n : nat) (group : list loc) :
  In group (group_by_start_time h (sort_midi_list h (seq 0 n))) ->
  StronglySorted (fun a b => (pitch (h a) <= pitch (h b))%Z) group.
Proof.
  intros I. destruct (group_common_start _ _ _ I) as (x & _ & E & C).
  apply common_start_pitch_sorted with (x := x); [ | exact C ].
  rewrite E. apply StronglySorted_filter. apply sort_midi_list_sorted.
Qed.

Lemma time_groups_facts (midi_data : list (list PrettyNote))
  (time_multiplier : Q) :
  let h := alloc (read_notes midi_data time_multiplier) in
  let groups := time_groups midi_data time_multiplier in
  Permutation (concat groups) (seq 0 (length (concat midi_data))) /\
  (forall group a b, In group groups -> In a group -> In b group ->
                     start (h a) == start (h b)) /\
  StronglySorted (before h) groups.
Proof.
  intros h groups. split; [ | split ].
  - apply NoDup_Permutation.
    + apply time_groups_disjoint.
    + apply seq_NoDup.
    + intros l. split.
      * intros I. apply time_groups_bound in I. apply in_seq. lia.
      * intros I. apply in_seq in I. apply groups_cover.
        apply (Permutation_in _
                 (Permutation_sym (sort_midi_list_perm _ _))).
        apply in_seq. rewrite read_notes_length. lia.
  - intros group a b Ig Ia Ib.
    destruct (group_common_start _ _ _ Ig) as (x & _ & _ & C).
    transitivity x; [ exact (C a Ia) | symmetry; exact (C b Ib) ].
  - apply groups_ascending.
Qed.

(** X5.  The grouping loses and repeats nothing: the groups, put end to
    end, are a rearrangement of the input events; two notes of a group
    have equal scaled start times, and every note of a group starts
    before every note of a later group. *)
Theorem groups_partition (midi_data : list (list PrettyNote))
  (time_multiplier : Q) :
  let h := alloc (read_notes midi_data time_multiplier) in
  let groups := time_groups midi_data time_multiplier in
  Permutation (concat groups) (seq 0 (length (concat midi_data))) /\
  (forall group a b, In group groups -> In a group -> In b group ->
                     start (h a) == start (h b)) /\
  StronglySorted (before h) groups.
Proof. apply time_groups_facts. Qed.

(** X6.  Inside a group the notes are in ascending order of pitch, so on
    any group of the run the lowest policy returns a note of the lowest
    pitch of the chord and the highest policy one of the highest pitch
    (pitches as read from the input, before range fitting). *)
Theorem chord_extremes midi_data time_multiplier group g :
  In group (time_groups midi_data time_multiplier) ->
  let h := alloc (read_notes midi_data time_multiplier) in
  StronglySorted (fun a b => (pitch (h a) <= pitch (h b))%Z) group /\
  (exists x, select_note_from_group group 0 g = Ok (x, g) /\
             In x group /\
             forall y, In y group -> (pitch (h x) <= pitch (h y))%Z) /\
  (exists x, select_note_from_group group 2 g = Ok (x, g) /\
             In x group /\
             forall y, In y group -> (pitch (h y) <= pitch (h x))%Z).
Proof.
  intros I h.
  pose proof (groups_pitch_sorted _ _ _ I) as S. fold h in S.
  pose proof (time_groups_nonempty _ _ _ I) as L.
  split; [ exact S | split ].
  - destruct group as [ | x t]; [ simpl in L; lia | ].
    exists x. split; [ reflexivity | ]. split; [ left; reflexivity | ].
    apply StronglySorted_inv in S. destruct S as [_ F].
    rewrite Forall_forall in F.
    intros y [<- | Iy]; [ lia | apply F; exact Iy ].
  - destruct (nonempty_snoc group ltac:(lia)) as (init & x & ->).
    exists x. split; [ | split ].
    + unfold select_note_from_group. rewrite selected_idx_highest.
      cbn [bind].
      replace (Z.of_nat (length (init ++ [x])) - 1)%Z
        with (Z.of_nat (length init))
        by (rewrite length_app; simpl; lia).
      rewrite (py_getitem_nat (init ++ [x]) (length init) (x := x)).
      * reflexivity.
      * rewrite nth_error_app2, Nat.sub_diag by lia. reflexivity.
    + apply in_or_app. right. left. reflexivity.
    + intros y Iy. apply in_app_or in Iy.
      destruct Iy as [Iy | [<- | []]]; [ | lia ].
      exact (StronglySorted_last _ _ S y Iy).
Qed.

Lemma chord_extremes_witness :
  In [2%nat; 0%nat; 1%nat]
     (time_groups [[pn 0 1 64; pn 0 1 67; pn 0 1 60]] 1) /\
  exists x, select_note_from_group [2%nat; 0%nat; 1%nat] 0 g0 = Ok (x, g0) /\
            In x [2%nat; 0%nat; 1%nat] /\
            forall y, In y [2%nat; 0%nat; 1%nat] ->
              (pitch (alloc (read_notes [[pn 0 1 64; pn 0 1 67; pn 0 1 60]]
                               1) x)
               <= pitch (alloc (read_notes
                                  [[pn 0 1 64; pn 0 1 67; pn 0 1 60]] 1) y))%Z.
Proof.
  assert (I : In [2%nat; 0%nat; 1%nat]
                 (time_groups [[pn 0 1 64; pn 0 1 67; pn 0 1 60]] 1))
    by (left; reflexivity).
  split; [ exact I | ].
  exact (proj1 (proj2 (chord_extremes
                         [[pn 0 1 64; pn 0 1 67; pn 0 1 60]] 1
                         [2%nat; 0%nat; 1%nat] g0 I))).
Defined.

(** ** More invariants of the loop *)

Lemma for_each_iterations (mn mx lt : Z) (leg : bool)
  (P : state -> list (list loc) -> Prop) :
  (forall st group rest st',
     P st (group :: rest) -> iteration mn mx leg st group st' ->
     P st' rest) ->
  forall groups st st',
    P st groups -> for_each mn mx lt leg groups st = Ok st' -> P st' [].
Proof.
  intros Step groups.
  induction groups as [ | group rest IH]; intros st st' I H.
  - injection H as <-. exact I.
  - cbn [for_each] in H.
    destruct (loop_body mn mx lt leg st group) as [st1 | ] eqn:B;
      [ | discriminate ].
    cbn [bind] in H. apply (IH st1 st'); [ | exact H ].
    eapply Step; [ exact I | ]. eapply loop_body_iteration. exact B.
Qed.

Lemma ascending_iteration (mn mx : Z) (leg : bool) (h0 : heap)
  (st st' : state) (group : list loc) (rest : list (list loc)) :
  ascending_invariant h0 st (group :: rest) ->
  iteration mn mx leg st group st' ->
  ascending_invariant h0 st' rest.
Proof.
  intros (S & B & G) It.
  apply StronglySorted_inv in G. destruct G as [Gr Fg].
  rewrite Forall_forall in Fg.
  assert (New : forall note, In note group ->
            forall a, In a (selected_notes st) ->
                      start (h0 a) < start (h0 note)).
  { intros note M a Ia. apply (B a group note Ia); [ left | ]; tauto. }
  assert (Old : forall a group' b, In a (selected_notes st) ->
            In group' rest -> In b group' -> start (h0 a) < start (h0 b)).
  { intros a group' b Ia Ig Ib. apply (B a group' b Ia); [ right | ];
      assumption. }
  destruct It as [note g M E | note prev sel g M E h Gate
                  | note prev sel g M E h Gate];
    unfold ascending_invariant; cbn [selected_notes].
  - split; [ repeat constructor | split; [ | exact Gr ] ].
    intros a group' b [<- | []] Ig Ib. exact (Fg group' Ig note b M Ib).
  - rewrite <- E. split; [ | split; [ | exact Gr ] ].
    + apply StronglySorted_snoc; [ exact S | apply New; exact M ].
    + intros a group' b Ia Ig Ib. apply in_app_or in Ia.
      destruct Ia as [Ia | [<- | []]].
      * exact (Old a group' b Ia Ig Ib).
      * exact (Fg group' Ig note b M Ib).
  - rewrite <- E. split; [ exact S | split; [ exact Old | exact Gr ] ].
Qed.

Lemma pitch_iteration (mn mx : Z) (leg : bool) (h0 : heap)
  (st st' : state) (group : list loc) (rest : list (list loc)) :
  pitch_invariant mn mx h0 st (group :: rest) ->
  iteration mn mx leg st group st' ->
  pitch_invariant mn mx h0 st' rest.
Proof.
  intros (N & U & F) It. cbn [concat] in N, U.
  assert (Fit : forall note, In note group ->
            (forall l, In l (concat rest) ->
               pitch (fit_to_pitch_range (st_heap st) note mn mx l)
               = pitch (h0 l)) /\
            (forall l, In l (selected_notes st) ->
               pitch (fit_to_pitch_range (st_heap st) note mn mx l)
               = fitted_pitch mn mx (pitch (h0 l))) /\
            pitch (fit_to_pitch_range (st_heap st) note mn mx note)
            = fitted_pitch mn mx (pitch (h0 note))).
  { intros note M.
    destruct (NoDup_app_inv _ _ N) as (_ & Ngr & D).
    destruct (NoDup_app_inv _ _ Ngr) as (_ & _ & D').
    split; [ | split ].
    - intros l Il. rewrite fit_other.
      + apply U. apply in_or_app. right. exact Il.
      + intros ->. exact (D' note M Il).
    - intros l Il. rewrite fit_other; [ apply F; exact Il | ].
      intros ->. apply (D note Il). apply in_or_app. left. exact M.
    - rewrite fit_pitch_fitted. f_equal. apply U.
      apply in_or_app. left. exact M. }
  destruct It as [note g M E | note prev sel g M E h Gate
                  | note prev sel g M E h Gate];
    destruct (Fit note M) as (Fr & Fs & Fn);
    unfold pitch_invariant; cbn [selected_notes st_heap].
  - rewrite E in N. split; [ exact (NoDup_pick _ _ _ _ N M) | ].
    split; [ exact Fr | ]. intros l [<- | []]. exact Fn.
  - rewrite E in N, Fs. split; [ exact (NoDup_pick _ _ _ _ N M) | ].
    assert (P : forall l,
               pitch ((if leg then set_end h prev (start (h note))
                       else h) l) = pitch (h l)).
    { intros l. destruct leg; [ apply set_end_pitch | reflexivity ]. }
    split.
    + intros l Il. rewrite P. apply Fr. exact Il.
    + intros l Il. rewrite P. apply in_app_or in Il.
      destruct Il as [Il | [<- | []]]; [ apply Fs; exact Il | exact Fn ].
  - rewrite E in N, Fs. split; [ exact (NoDup_skip _ _ _ N) | ].
    split; [ exact Fr | exact Fs ].
Qed.

Lemma ends_iteration (mn mx : Z) (leg : bool) (h0 : heap)
  (st st' : state) (group : list loc) :
  ends_extended h0 st -> iteration mn mx leg st group st' ->
  ends_extended h0 st'.
Proof.
  intros X It l.
  destruct It as [note g M E | note prev sel g M E h Gate
                  | note prev sel g M E h Gate]; cbn [st_heap].
  - rewrite fit_end. apply X.
  - destruct leg; [ | unfold h; rewrite fit_end; apply X ].
    destruct (Nat.eq_dec l prev) as [-> | N].
    + rewrite set_end_same. eapply Qle_trans; [ apply (X prev) | ].
      unfold h in Gate. rewrite fit_end in Gate. exact Gate.
    + rewrite set_end_other by exact N. unfold h. rewrite fit_end.
      apply X.
  - unfold h. rewrite fit_end. apply X.
Qed.

Lemma nonempty_iteration (mn mx : Z) (leg : bool) (st st' : state)
  (group : list loc) :
  iteration mn mx leg st group st' -> selected_notes st' <> [].
Proof.
  intros [note g M E | note prev sel g M E h Gate
          | note prev sel g M E h Gate]; cbn [selected_notes].
  - discriminate.
  - intros H. apply app_eq_nil in H. destruct H as [_ H]. discriminate.
  - intros H. apply app_eq_nil in H. destruct H as [_ H]. discriminate.
Qed.

Section PipelineMore.
Variables (midi_data : list (list PrettyNote)) (range_min range_max : Z)
          (time_multiplier : Q) (logic_type : Z) (add_legato : bool)
          (g : rng) (st : state).

Let h0 := alloc (read_notes midi_data time_multiplier).
Let groups := time_groups midi_data time_multiplier.

Hypothesis run :
  select_notes midi_data range_min range_max time_multiplier logic_type
    add_legato g = Ok st.

Lemma select_notes_ascending :
  StronglySorted (fun a b => start (h0 a) < start (h0 b))
                 (selected_notes st).
Proof.
  rewrite select_notes_unfold in run.
  refine (proj1 (@for_each_iterations range_min range_max logic_type
                   add_legato (ascending_invariant h0)
                   (fun s group rest s' =>
                      @ascending_iteration range_min range_max add_legato
                        h0 s s' group rest)
                   _ _ _ _ run)).
  split; [ constructor | split; [ intros a group b [] | ] ].
  apply groups_ascending.
Qed.

Lemma select_notes_pitch (l : loc) :
  In l (selected_notes st) ->
  pitch (st_heap st l) = fitted_pitch range_min range_max (pitch (h0 l)).
Proof.
  rewrite select_notes_unfold in run.
  refine (proj2 (proj2 (@for_each_iterations range_min range_max
                   logic_type add_legato
                   (pitch_invariant range_min range_max h0)
                   (fun s group rest s' =>
                      @pitch_iteration range_min range_max add_legato
                        h0 s s' group rest)
                   _ _ _ _ run)) l).
  split; [ apply time_groups_disjoint | split; [ reflexivity | ] ].
  intros l' [].
Qed.

Lemma select_notes_ends (l : loc) : end_ (h0 l) <= end_ (st_heap st l).
Proof.
  rewrite select_notes_unfold in run.
  refine (@for_each_iterations range_min range_max logic_type add_legato
            (fun s _ => ends_extended h0 s)
            (fun s group rest s' =>
               @ends_iteration range_min range_max add_legato h0 s s' group)
            _ _ _ _ run l).
  intros l'. apply Qle_refl.
Qed.

Lemma select_notes_event (l : loc) :
  In l (selected_notes st) ->
  exists e, In e (concat midi_data) /\ h0 l = scale_note time_multiplier e /\
            start (st_heap st l) = pm_start e * time_multiplier.
Proof.
  intros Il. destruct (select_notes_invariant _ _ _ _ _ _ _ run)
    as (I & _ & B).
  specialize (B l Il).
  rewrite <- read_notes_length with (time_multiplier := time_multiplier)
    in B.
  destruct (alloc_scaled midi_data time_multiplier B) as (e & Ie & _ & Ea).
  exists e. split; [ exact Ie | ]. split; [ exact Ea | ].
  rewrite (inv_start I l), Ea. reflexivity.
Qed.
End PipelineMore.

(** ** The returned sequence *)

(** X7.  The returned sequence is in strictly ascending order of start
    time: every note starts before all the notes that follow it. *)
Theorem output_starts_ascending :
  forall midi_data range_min range_max time_multiplier logic_type
         add_legato g,
    match midi_postprocessing midi_data range_min range_max
            time_multiplier logic_type add_legato g with
    | Ok (out, _) =>
        StronglySorted (fun a b => pm_start a < pm_start b) out
    | Raise e => e = AssertionError /\ ~ valid_logic_type logic_type
    end.
Proof.
  intros md mn mx tm lt leg g.
  destruct (midi_postprocessing_outcome md mn mx tm lt leg g)
    as [(st & R & ->) | (-> & V & _)]; [ | tauto ].
  pose proof (select_notes_ascending _ _ _ _ _ _ _ R) as S.
  apply select_notes_invariant in R. destruct R as (I & _).
  unfold out_notes. revert S. apply StronglySorted_map_rel.
  intros a b L. cbn [pm_start]. rewrite !(inv_start I). exact L.
Qed.

Lemma fitted_pitch_in_range (mn mx p : Z) :
  in_range mn mx p -> fitted_pitch mn mx p = p.
Proof.
  intros R. unfold fitted_pitch. rewrite fit_in_range_id; [ reflexivity | ].
  exact R.
Qed.

Lemma fitted_pitch_octaves (mn mx p : Z) :
  ((fitted_pitch mn mx p - p) mod 12 = 0)%Z.
Proof.
  unfold fitted_pitch. rewrite fit_pitch. cbv zeta.
  change (pitch (alloc [mkNote 0 0 p] 0%nat)) with p.
  destruct (p >? mx)%Z.
  - replace (p - 12 * ((p - mx + 11) / 12) - p)%Z
      with ((- ((p - mx + 11) / 12)) * 12)%Z by lia.
    apply Z.mod_mul. lia.
  - destruct (p <? mn)%Z.
    + replace (p + 12 * ((mn - p + 11) / 12) - p)%Z
        with (((mn - p + 11) / 12) * 12)%Z by lia.
      apply Z.mod_mul. lia.
    + rewrite Z.sub_diag. reflexivity.
Qed.

(** X8.  Every note of the returned sequence has velocity 127 and comes
    from one input event: it starts at that event's scaled start and its
    pitch is the event's pitch passed once through the range fitter, that
    is the same pitch when it lies in the range, and whole octaves away
    from it otherwise. *)
Theorem output_note_origin midi_data range_min range_max time_multiplier
  logic_type add_legato g out n :
  midi_postprocessing midi_data range_min range_max time_multiplier
    logic_type add_legato g = Ok (out, n) ->
  forall o, In o out ->
    velocity o = 127%Z /\
    exists e, In e (concat midi_data) /\
              pm_start o = pm_start e * time_multiplier /\
              pm_pitch o = fitted_pitch range_min range_max (pm_pitch e) /\
              ((pm_pitch o - pm_pitch e) mod 12 = 0)%Z /\
              (in_range range_min range_max (pm_pitch e) ->
               pm_pitch o = pm_pitch e).
Proof.
  intros H o Io.
  destruct (midi_postprocessing_outcome midi_data range_min range_max
              time_multiplier logic_type add_legato g)
    as [(st & R & E) | (E & _)]; [ | congruence ].
  rewrite E in H. injection H as <- <-.
  unfold out_notes in Io. apply in_map_iff in Io.
  destruct Io as (l & <- & Il). cbn [velocity pm_start pm_pitch].
  split; [ reflexivity | ].
  destruct (select_notes_event _ _ _ _ _ _ _ R l Il) as (e & Ie & Ea & Es).
  exists e. split; [ exact Ie | ]. split; [ exact Es | ].
  rewrite (select_notes_pitch _ _ _ _ _ _ _ R l Il), Ea.
  cbn [scale_note pitch].
  split; [ reflexivity | ]. split; [ apply fitted_pitch_octaves | ].
  apply fitted_pitch_in_range.
Qed.

Lemma output_note_origin_witness :
  midi_postprocessing [[pn 0 1 90]] 48 72 1 1 true g0
  = Ok ([mkPrettyNote 127 66 (0 * 1) (1 * 1)], 1%nat) /\
  exists e, In e (concat [[pn 0 1 90]]) /\
            0 * 1 = pm_start e * 1 /\
            66%Z = fitted_pitch 48 72 (pm_pitch e) /\
            ((66 - pm_pitch e) mod 12 = 0)%Z /\
            (in_range 48 72 (pm_pitch e) -> 66%Z = pm_pitch e).
Proof.
  assert (E : midi_postprocessing [[pn 0 1 90]] 48 72 1 1 true g0
              = Ok ([mkPrettyNote 127 66 (0 * 1) (1 * 1)], 1%nat))
    by reflexivity.
  split; [ exact E | ].
  exact (proj2 (output_note_origin [[pn 0 1 90]] 48 72 1 1 true g0 E
                  (mkPrettyNote 127 66 (0 * 1) (1 * 1))
                  (or_introl eq_refl))).
Defined.

(** X9.  Legato only lengthens notes.  No note on the heap ends earlier
    after the run than when it was read; and the note written at position
    [i] of the output, whose list was created from the input event at
    position [l] of the reading order, starts at the scaled start of that
    very event and ends no earlier than its scaled end. *)
Theorem output_ends_not_shortened midi_data range_min range_max
  time_multiplier logic_type add_legato g st :
  select_notes midi_data range_min range_max time_multiplier logic_type
    add_legato g = Ok st ->
  midi_postprocessing midi_data range_min range_max time_multiplier
    logic_type add_legato g
  = Ok (out_notes st, length (selected_notes st)) /\
  (forall l, end_ (alloc (read_notes midi_data time_multiplier) l)
             <= end_ (st_heap st l)) /\
  (forall i l, nth_error (selected_notes st) i = Some l ->
     exists e o,
       nth_error (concat midi_data) l = Some e /\
       nth_error (out_notes st) i = Some o /\
       pm_start o = pm_start e * time_multiplier /\
       pm_end e * time_multiplier <= pm_end o).
Proof.
  intros R. split; [ | split ].
  - unfold midi_postprocessing. rewrite R. reflexivity.
  - intros l. exact (select_notes_ends _ _ _ _ _ _ _ R l).
  - intros i l Ni.
    assert (Il : In l (selected_notes st))
      by (eapply nth_error_In; exact Ni).
    destruct (select_notes_invariant _ _ _ _ _ _ _ R) as (I & _ & B).
    specialize (B l Il).
    rewrite <- read_notes_length with (time_multiplier := time_multiplier)
      in B.
    destruct (alloc_scaled midi_data time_multiplier B)
      as (e & _ & Ne & Ea).
    exists e. eexists. split; [ exact Ne | ]. split.
    + unfold out_notes. rewrite nth_error_map, Ni. reflexivity.
    + cbn [pm_start pm_end]. split.
      * rewrite (inv_start I l), Ea. reflexivity.
      * pose proof (select_notes_ends _ _ _ _ _ _ _ R l) as X.
        rewrite Ea in X. exact X.
Qed.

Lemma output_ends_not_shortened_witness :
  select_notes [[pn 0 1 60; pn 0 5 64; pn 7 8 62]] 48 72 1 2 true g0
  = Ok (mkState
          (set_end (alloc (read_notes [[pn 0 1 60; pn 0 5 64; pn 7 8 62]] 1))
                   1%nat (7 * 1))
          [1%nat; 2%nat] (fun _ => 0%nat)) /\
  exists e o,
    nth_error (concat [[pn 0 1 60; pn 0 5 64; pn 7 8 62]]) 1 = Some e /\
    nth_error
      (out_notes
         (mkState
            (set_end
               (alloc (read_notes [[pn 0 1 60; pn 0 5 64; pn 7 8 62]] 1))
               1%nat (7 * 1))
            [1%nat; 2%nat] (fun _ => 0%nat))) 0 = Some o /\
    pm_start o = pm_start e * 1 /\ pm_end e * 1 <= pm_end o.
Proof.
  assert (E : select_notes [[pn 0 1 60; pn 0 5 64; pn 7 8 62]]
                48 72 1 2 true g0
              = Ok (mkState
                      (set_end
                         (alloc (read_notes
                                   [[pn 0 1 60; pn 0 5 64; pn 7 8 62]] 1))
                         1%nat (7 * 1))
                      [1%nat; 2%nat] (fun _ => 0%nat))) by reflexivity.
  split; [ exact E | ].
  exact (proj2 (proj2 (@output_ends_not_shortened
                         [[pn 0 1 60; pn 0 5 64; pn 7 8 62]] 48%Z 72%Z 1
                         2%Z true g0 _ E)) 0%nat 1%nat eq_refl).
Defined.

(** X10.  With a multiplier that is not negative, if no input event ends
    before it starts, no note of the returned sequence does. *)
Theorem output_durations_nonnegative midi_data range_min range_max
  time_multiplier logic_type add_legato g out n :
  0 <= time_multiplier ->
  (forall e, In e (concat midi_data) -> pm_start e <= pm_end e) ->
  midi_postprocessing midi_data range_min range_max time_multiplier
    logic_type add_legato g = Ok (out, n) ->
  forall o, In o out -> pm_start o <= pm_end o.
Proof.
  intros T W H o Io.
  destruct (midi_postprocessing_outcome midi_data range_min range_max
              time_multiplier logic_type add_legato g)
    as [(st & R & E) | (E & _)]; [ | congruence ].
  rewrite E in H. injection H as <- <-.
  unfold out_notes in Io. apply in_map_iff in Io.
  destruct Io as (l & <- & Il). cbn [pm_start pm_end].
  destruct (select_notes_event _ _ _ _ _ _ _ R l Il) as (e & Ie & Ea & Es).
  pose proof (select_notes_ends _ _ _ _ _ _ _ R l) as X.
  rewrite Ea in X. cbn [scale_note end_] in X. rewrite Es.
  eapply Qle_trans; [ | exact X ].
  apply Qmult_le_compat_r; [ | exact T ]. apply W. exact Ie.
Qed.

Lemma output_durations_nonnegative_witness :
  (0 <= 2) /\
  (forall e, In e (concat [[pn 1 2 60]]) -> pm_start e <= pm_end e) /\
  midi_postprocessing [[pn 1 2 60]] 48 72 2 1 true g0
  = Ok ([mkPrettyNote 127 60 (1 * 2) (2 * 2)], 1%nat) /\
  (1 * 2 <= 2 * 2).
Proof.
  assert (T : 0 <= 2) by (intros H; discriminate H).
  assert (W : forall e, In e (concat [[pn 1 2 60]]) ->
                        pm_start e <= pm_end e).
  { intros e [<- | []]. intros H. discriminate H. }
  assert (E : midi_postprocessing [[pn 1 2 60]] 48 72 2 1 true g0
              = Ok ([mkPrettyNote 127 60 (1 * 2) (2 * 2)], 1%nat))
    by reflexivity.
  split; [ exact T | ]. split; [ exact W | ]. split; [ exact E | ].
  exact (@output_durations_nonnegative [[pn 1 2 60]] 48%Z 72%Z 2 1%Z true
           g0 _ _ T W E
           (mkPrettyNote 127 60 (1 * 2) (2 * 2)) (or_introl eq_refl)).
Defined.

(** ** The first note and the count *)

Lemma py_set_nonempty (l : list Q) : l <> [] -> py_set l <> [].
Proof.
  induction l as [ | y t IH]; intros N; [ congruence | ].
  cbn [py_set]. destruct (existsb (Qeq_bool y) t) eqn:E; [ | discriminate ].
  apply IH. intros ->. discriminate E.
Qed.

Lemma time_groups_exist (midi_data : list (list PrettyNote)) (tm : Q) :
  concat midi_data <> [] -> time_groups midi_data tm <> [].
Proof.
  intros N G. apply (f_equal (@length (list loc))) in G.
  unfold time_groups, group_by_start_time, start_values in G.
  cbv zeta in G.
  rewrite length_map, (Permutation_length (sorted_perm _ _ _)) in G.
  cbn [length] in G. apply length_zero_iff_nil in G.
  revert G. apply py_set_nonempty. intros M.
  apply (f_equal (@length Q)) in M.
  rewrite length_map, sort_midi_list_length in M.
  unfold read_notes in M. rewrite length_map in M. cbn [length] in M.
  apply length_zero_iff_nil in M. exact (N M).
Qed.

Lemma head_kept_iteration (mn mx : Z) (leg : bool) (st st' : state)
  (group : list loc) (a : loc) :
  (exists tl, selected_notes st = a :: tl) ->
  iteration mn mx leg st group st' ->
  exists tl, selected_notes st' = a :: tl.
Proof.
  intros (tl & E0) It.
  destruct It as [note g M E | note prev sel g M E h Gate
                  | note prev sel g M E h Gate]; cbn [selected_notes].
  - congruence.
  - rewrite <- E, E0. eexists. reflexivity.
  - rewrite <- E, E0. eexists. reflexivity.
Qed.

Lemma for_each_head (mn mx lt : Z) (leg : bool) (h : heap) (g : rng)
  (group : list loc) (rest : list (list loc)) (st : state) :
  for_each mn mx lt leg (group :: rest) (mkState h [] g) = Ok st ->
  exists a tl, In a group /\ selected_notes st = a :: tl.
Proof.
  cbn [for_each]. intros H.
  destruct (loop_body mn mx lt leg (mkState h [] g) group) as [st1 | ] eqn:B;
    [ | discriminate ].
  cbn [bind] in H. apply loop_body_iteration in B.
  assert (F : exists a, In a group /\ selected_notes st1 = [a]).
  { destruct B as [note g' M E | note prev sel g' M E h' Gate
                   | note prev sel g' M E h' Gate];
      cbn [selected_notes] in *.
    - exists note. split; [ exact M | reflexivity ].
    - destruct sel; discriminate.
    - destruct sel; discriminate. }
  destruct F as (a & Ia & Ea). exists a.
  destruct (@for_each_iterations mn mx lt leg
              (fun s _ => exists tl, selected_notes s = a :: tl)
              (fun s grp rst s' (P : exists tl, selected_notes s = a :: tl) =>
                 @head_kept_iteration mn mx leg s s' grp a P)
              rest st1 st (ex_intro _ [] Ea) H) as (tl & E).
  exists tl. split; assumption.
Qed.

(** X11.  The first note of the returned sequence starts at the earliest
    scaled start time of the input: no input event starts before it. *)
Theorem first_note_is_earliest midi_data range_min range_max
  time_multiplier logic_type add_legato g out n :
  midi_postprocessing midi_data range_min range_max time_multiplier
    logic_type add_legato g = Ok (out, n) ->
  forall o rest, out = o :: rest ->
    forall e, In e (concat midi_data) ->
      pm_start o <= pm_start e * time_multiplier.
Proof.
  intros H o rest Eo e Ie.
  destruct (midi_postprocessing_outcome midi_data range_min range_max
              time_multiplier logic_type add_legato g)
    as [(st & R & E) | (E & _)]; [ | congruence ].
  rewrite E in H. injection H as <- <-.
  pose proof (select_notes_invariant _ _ _ _ _ _ _ R) as (I & _).
  rewrite select_notes_unfold in R.
  destruct (time_groups_facts midi_data time_multiplier) as (Pm & Cs & As).
  cbv zeta in Pm, Cs, As.
  destruct (time_groups midi_data time_multiplier) as [ | group others]
    eqn:G.
  { cbn [for_each] in R. injection R as <-. discriminate Eo. }
  destruct (@for_each_head _ _ _ _ _ _ _ _ _ R) as (a & tl & Ia & Ea).
  unfold out_notes in Eo. rewrite Ea in Eo. cbn [map] in Eo.
  injection Eo as <- _. cbn [pm_start]. rewrite (inv_start I a).
  apply In_nth_error in Ie. destruct Ie as (l & Nl).
  assert (L : (l < length (concat midi_data))%nat)
    by (apply nth_error_Some; congruence).
  assert (S : start (alloc (read_notes midi_data time_multiplier) l)
              = pm_start e * time_multiplier).
  { unfold alloc, read_notes.
    rewrite (nth_error_nth _ _ dummy_note
               (x := scale_note time_multiplier e));
      [ reflexivity | ].
    rewrite nth_error_map, Nl. reflexivity. }
  rewrite <- S.
  assert (Il : In l (concat (group :: others))).
  { apply (Permutation_in _ (Permutation_sym Pm)). apply in_seq. lia. }
  cbn [concat] in Il. apply in_app_or in Il. destruct Il as [Il | Il].
  - apply Qle_lteq. right.
    exact (Cs group a l (or_introl eq_refl) Ia Il).
  - apply in_concat in Il. destruct Il as (group' & Ig & Il).
    apply StronglySorted_inv in As. destruct As as [_ F].
    rewrite Forall_forall in F. apply Qlt_le_weak.
    exact (F group' Ig a l Ia Il).
Qed.

Lemma first_note_is_earliest_witness :
  midi_postprocessing [[pn 2 3 67; pn (1 # 2) 1 60]] 48 72 1 1 false g0
  = Ok ([mkPrettyNote 127 60 ((1 # 2) * 1) (1 * 1);
         mkPrettyNote 127 67 (2 * 1) (3 * 1)], 2%nat) /\
  (1 # 2) * 1 <= 2 * 1.
Proof.
  assert (E : midi_postprocessing [[pn 2 3 67; pn (1 # 2) 1 60]]
                48 72 1 1 false g0
              = Ok ([mkPrettyNote 127 60 ((1 # 2) * 1) (1 * 1);
                     mkPrettyNote 127 67 (2 * 1) (3 * 1)], 2%nat))
    by reflexivity.
  split; [ exact E | ].
  exact (@first_note_is_earliest [[pn 2 3 67; pn (1 # 2) 1 60]] 48%Z 72%Z
           1 1%Z false g0 _ _ E _ _ eq_refl (pn 2 3 67)
           (or_introl eq_refl)).
Defined.

(** X12.  When the run returns, the count is zero exactly when the input
    holds no event: the earliest group always yields a note. *)
Theorem count_zero_iff_no_events midi_data range_min range_max
  time_multiplier logic_type add_legato g out n :
  midi_postprocessing midi_data range_min range_max time_multiplier
    logic_type add_legato g = Ok (out, n) ->
  (n = 0%nat <-> concat midi_data = []).
Proof.
  intros H.
  destruct (midi_postprocessing_outcome midi_data range_min range_max
              time_multiplier logic_type add_legato g)
    as [(st & R & E) | (E & _)]; [ | congruence ].
  rewrite E in H. injection H as <- <-.
  rewrite select_notes_unfold in R. split.
  - intros Z. apply length_zero_iff_nil in Z.
    destruct (concat midi_data) as [ | e t] eqn:C; [ reflexivity | ].
    exfalso.
    assert (G : time_groups midi_data time_multiplier <> []).
    { apply time_groups_exist. rewrite C. discriminate. }
    destruct (time_groups midi_data time_multiplier) as [ | group others];
      [ congruence | ].
    destruct (@for_each_head _ _ _ _ _ _ _ _ _ R) as (a & tl & _ & Ea).
    congruence.
  - intros C.
    assert (G : time_groups midi_data time_multiplier = []).
    { unfold time_groups, read_notes. rewrite C. reflexivity. }
    rewrite G in R. cbn [for_each] in R. injection R as <-. reflexivity.
Qed.

Lemma count_zero_iff_no_events_witness :
  midi_postprocessing [[pn 0 2 60; pn 1 3 62]] 48 72 1 1 true g0
  = Ok ([mkPrettyNote 127 60 (0 * 1) (2 * 1)], 1%nat) /\
  (1%nat = 0%nat <-> concat [[pn 0 2 60; pn 1 3 62]] = []).
Proof.
  assert (E : midi_postprocessing [[pn 0 2 60; pn 1 3 62]] 48 72 1 1 true g0
              = Ok ([mkPrettyNote 127 60 (0 * 1) (2 * 1)], 1%nat))
    by reflexivity.
  split; [ exact E | ].
  exact (@count_zero_iff_no_events [[pn 0 2 60; pn 1 3 62]] 48%Z 72%Z
           1 1%Z true g0 _ _ E).
Defined.



Lemma groups_partition_witness :
  In [2%nat; 0%nat] (time_groups [[pn 1 2 64; pn 0 1 67; pn 1 3 60]] 1) /\
  start (alloc (read_notes [[pn 1 2 64; pn 0 1 67; pn 1 3 60]] 1) 2%nat)
  == start (alloc (read_notes [[pn 1 2 64; pn 0 1 67; pn 1 3 60]] 1) 0%nat).
Proof.
  assert (I : In [2%nat; 0%nat]
                 (time_groups [[pn 1 2 64; pn 0 1 67; pn 1 3 60]] 1))
    by (right; left; reflexivity).
  split; [ exact I | ].
  exact (proj1 (proj2 (groups_partition
                         [[pn 1 2 64; pn 0 1 67; pn 1 3 60]] 1))
           [2%nat; 0%nat] 2%nat 0%nat I (or_introl eq_refl)
           (or_intror (or_introl eq_refl))).
Defined.

(** ** Inputs without overlap *)

Section NoOverlapInput.
Variables (range_min range_max : Z) (add_legato : bool) (h0 : heap)
          (total bound : nat).

(** A note that starts before another one ends before the other starts. *)
Hypothesis separated :
  forall a b, (a < bound)%nat -> (b < bound)%nat ->
    start (h0 a) < start (h0 b) -> end_ (h0 a) <= start (h0 b).

Lemma nothing_dropped_iteration (st st' : state) (group : list loc)
  (rest : list (list loc)) :
  nothing_dropped range_min range_max add_legato h0 total bound st
    (group :: rest) ->
  iteration range_min range_max add_legato st group st' ->
  nothing_dropped range_min range_max add_legato h0 total bound st' rest.
Proof.
  intros (I & A & C & B) It.
  split; [ eapply invariant_iteration; eassumption | ].
  split; [ eapply ascending_iteration; eassumption | ].
  cbn [concat length] in C, B.
  destruct It as [note g M E | note prev sel g M E h Gate
                  | note prev sel g M E h Gate]; cbn [selected_notes].
  - rewrite E in C, B. cbn [length app] in C, B |- *.
    split; [ lia | ]. intros l [<- | Il]; apply B; apply in_or_app;
      [ left; exact M | right; exact Il ].
  - rewrite E in C, B. split.
    + rewrite !length_app in C. rewrite !length_app.
      cbn [length] in C |- *. lia.
    + intros l Il. apply B. apply in_app_or in Il.
      destruct Il as [Il | Il].
      * apply in_app_or in Il. destruct Il as [Il | [<- | []]].
        -- apply in_or_app. left. exact Il.
        -- apply in_or_app. right. apply in_or_app. left. exact M.
      * apply in_or_app. right. apply in_or_app. right. exact Il.
  - exfalso. apply Gate. unfold h. rewrite fit_end, fit_start.
    rewrite (inv_start I note).
    assert (Ip : In prev (selected_notes st)).
    { rewrite E. apply in_or_app. right. left. reflexivity. }
    assert (Np : ~ In prev (removelast (selected_notes st))).
    { rewrite E, removelast_last. apply NoDup_snoc_notin. rewrite <- E.
      eapply NoDup_app_remove_r. exact (inv_nodup I). }
    rewrite (inv_end_last I prev Np).
    apply separated.
    + apply B. apply in_or_app. left. exact Ip.
    + apply B. apply in_or_app. right. apply in_or_app. left. exact M.
    + destruct A as (_ & Asc & _).
      apply (Asc prev group note Ip); [ left; reflexivity | exact M ].
Qed.
End NoOverlapInput.

Lemma length_concat_singletons {A : Type} (ls : list (list A)) :
  (forall l, In l ls -> length l = 1%nat) ->
  length (concat ls) = length ls.
Proof.
  induction ls as [ | l t IH]; intros H; [ reflexivity | ].
  cbn [concat length]. rewrite length_app, IH.
  - rewrite (H l (or_introl eq_refl)). reflexivity.
  - intros l' I. apply H. right. exact I.
Qed.

Lemma monophonic_groups_count (midi_data : list (list PrettyNote))
  (tm : Q) :
  polyphonic (time_groups midi_data tm) = false ->
  length (time_groups midi_data tm) = length (concat midi_data).
Proof.
  intros P.
  destruct (time_groups_facts midi_data tm) as (Pm & _).
  cbv zeta in Pm. apply Permutation_length in Pm.
  rewrite length_seq in Pm. rewrite <- Pm. symmetry.
  apply length_concat_singletons. intros group I.
  pose proof (time_groups_nonempty _ _ _ I) as L.
  assert (B : (1 <? length group)%nat = false).
  { destruct (1 <? length group)%nat eqn:E; [ | reflexivity ].
    assert (T : polyphonic (time_groups midi_data tm) = true).
    { apply existsb_exists. exists group. split; assumption. }
    congruence. }
  apply Nat.ltb_ge in B. lia.
Qed.

(** X14.  If no input event ends after the start of an event that starts
    later (times scaled), the overlap gate drops nothing: the returned
    count is the number of start-time groups, and the number of input
    events when no two of them share a start time. *)
Theorem separated_input_keeps_every_group midi_data range_min range_max
  time_multiplier logic_type add_legato g out n :
  (forall a b, In a (concat midi_data) -> In b (concat midi_data) ->
     pm_start a * time_multiplier < pm_start b * time_multiplier ->
     pm_end a * time_multiplier <= pm_start b * time_multiplier) ->
  midi_postprocessing midi_data range_min range_max time_multiplier
    logic_type add_legato g = Ok (out, n) ->
  n = length (time_groups midi_data time_multiplier) /\
  (polyphonic (time_groups midi_data time_multiplier) = false ->
   n = length (concat midi_data)).
Proof.
  intros Sep H.
  destruct (midi_postprocessing_outcome midi_data range_min range_max
              time_multiplier logic_type add_legato g)
    as [(st & R & E) | (E & _)]; [ | congruence ].
  rewrite E in H. injection H as <- <-.
  rewrite select_notes_unfold in R.
  set (notes := read_notes midi_data time_multiplier) in *.
  assert (Sep' : forall a b,
             (a < length notes)%nat -> (b < length notes)%nat ->
             start (alloc notes a) < start (alloc notes b) ->
             end_ (alloc notes a) <= start (alloc notes b)).
  { intros a b La Lb L.
    destruct (alloc_scaled midi_data time_multiplier La)
      as (ea & Ia & _ & Ea).
    destruct (alloc_scaled midi_data time_multiplier Lb)
      as (eb & Ib & _ & Eb).
    fold notes in Ea, Eb. rewrite Ea, Eb in L |- *.
    apply Sep; assumption. }
  assert (N : length (selected_notes st)
              = length (time_groups midi_data time_multiplier)).
  { assert (I0 : nothing_dropped range_min range_max add_legato
                   (alloc notes)
                   (length (time_groups midi_data time_multiplier))
                   (length notes) (mkState (alloc notes) [] g)
                   (time_groups midi_data time_multiplier)).
    { split; [ | split; [ | split ] ]; cbn [selected_notes].
      - apply invariant_init. apply time_groups_disjoint.
      - split; [ constructor | split; [ intros a grp b [] | ] ].
        apply groups_ascending.
      - reflexivity.
      - intros l Il. cbn [app] in Il. apply time_groups_bound in Il.
        unfold notes. rewrite read_notes_length. exact Il. }
    destruct (@for_each_iterations range_min range_max logic_type
                add_legato
                (nothing_dropped range_min range_max add_legato
                   (alloc notes)
                   (length (time_groups midi_data time_multiplier))
                   (length notes))
                (fun s grp rst s' =>
                   @nothing_dropped_iteration range_min range_max
                     add_legato (alloc notes) _ _ Sep' s s' grp rst)
                _ _ _ I0 R) as (_ & _ & C & _).
    cbn [length] in C. lia. }
  split; [ exact N | ].
  intros P. rewrite N. apply monophonic_groups_count. exact P.
Qed.

Lemma separated_input_keeps_every_group_witness :
  (forall a b, In a (concat two_notes_gap) -> In b (concat two_notes_gap) ->
     pm_start a * 1 < pm_start b * 1 -> pm_end a * 1 <= pm_start b * 1) /\
  midi_postprocessing two_notes_gap 48 72 1 1 true g0
  = Ok ([mkPrettyNote 127 60 (0 * 1) (2 * 1);
         mkPrettyNote 127 62 (2 * 1) (3 * 1)], 2%nat) /\
  2%nat = length (time_groups two_notes_gap 1).
Proof.
  assert (S : forall a b, In a (concat two_notes_gap) ->
                In b (concat two_notes_gap) ->
                pm_start a * 1 < pm_start b * 1 ->
                pm_end a * 1 <= pm_start b * 1).
  { intros a b [<- | [<- | []]] [<- | [<- | []]] L;
      vm_compute in L |- *; congruence. }
  assert (E : midi_postprocessing two_notes_gap 48 72 1 1 true g0
              = Ok ([mkPrettyNote 127 60 (0 * 1) (2 * 1);
                     mkPrettyNote 127 62 (2 * 1) (3 * 1)], 2%nat))
    by reflexivity.
  split; [ exact S | ]. split; [ exact E | ].
  exact (proj1 (@separated_input_keeps_every_group two_notes_gap 48%Z 72%Z
                  1 1%Z true g0 _ _ S E)).
Defined.
